(** * radreportparser: section-boundary resolution

    A shallow embedding of the section extraction engine of
    [radreportparser] (pattern compilation from marker lists, start and end
    position search, [SectionExtractor.extract] and
    [SectionExtractor.extract_all]) together with the properties its
    specification states about it.

    Conventions of the embedding:
    - a Python [str] is a [list ascii]: text of the Latin-1 characters,
      the code points 0 to 255, with Python's own whitespace, word
      characters and letter case for them; an [int] that may be negative
      is a [Z], a length or a count is a [nat];
    - [None]-able marker lists are [option (list regex)];
    - a raised [ValueError] is the [Raise] branch of [result];
    - [logging.warning] calls are collected, in order, in the first
      component of the value a logging function returns;
    - a marker fragment (a Python regular expression given as a string) is
      represented by its syntax tree [regex]; ['|'.join(keys)] is the
      alternation of the fragments in list order.  The syntax covers
      literal characters, [.], the classes [\w \s \d] and their negations,
      [\b], concatenation, alternation and the greedy [*]; markers with
      character sets, inline flags or look-around are outside it. *)

From Stdlib Require Import String Ascii List ZArith Lia Bool Arith Permutation.
Import ListNotations.

(** ** Python strings *)

Module Py.

Definition text := list ascii.

Definition str (s : string) : text := list_ascii_of_string s.

Definition len (t : text) : Z := Z.of_nat (length t).

(** Index normalisation of a slice bound: a negative bound counts from the
    end, and every bound is clamped to [0 .. len]. *)
Definition norm_index (n : nat) (i : Z) : nat :=
  if (i <? 0)%Z then Z.to_nat (Z.max (i + Z.of_nat n) 0)
  else Nat.min (Z.to_nat i) n.

(** [t[lo:hi]] *)
Definition slice (t : text) (lo hi : Z) : text :=
  let l := norm_index (length t) lo in
  let h := norm_index (length t) hi in
  firstn (h - l) (skipn l t).

(** [t[lo:]] *)
Definition slice_from (t : text) (lo : Z) : text :=
  skipn (norm_index (length t) lo) t.

(** [str.isspace] on one character: the ASCII white space, the
    separators 28 to 31, NEL (133) and the no-break space (160). *)
Definition isspace (a : ascii) : bool :=
  let n := nat_of_ascii a in
  ((9 <=? n) && (n <=? 13)) || ((28 <=? n) && (n <=? 32))
  || (n =? 133) || (n =? 160).

Fixpoint lstrip (t : text) : text :=
  match t with
  | a :: t' => if isspace a then lstrip t' else t
  | [] => []
  end.

Definition rstrip (t : text) : text := rev (lstrip (rev t)).

(** [str.strip()] *)
Definition strip (t : text) : text := rstrip (lstrip t).

(** Truth value of a string or list: non-empty. *)
Definition truthy {A} (l : list A) : bool :=
  match l with [] => false | _ => true end.

End Py.

(** ** The regular-expression engine ([re])

    A backtracking matcher with the priorities of Python's [re]: the
    alternatives of [|] are tried left to right, [*] is greedy, and the
    first way of matching found is the match. *)

Module Re.

Import Py.

(** [re.RegexFlag], restricted to the two flags the package uses. *)
Record RegexFlag := { ignorecase : bool; dotall : bool }.

Definition IGNORECASE : RegexFlag :=
  {| ignorecase := true; dotall := false |}.

Definition NOFLAG : RegexFlag :=
  {| ignorecase := false; dotall := false |}.

Inductive cclass := CWord | CSpace | CDigit.

Inductive regex :=
| Eps                               (* the empty pattern *)
| Chr (c : ascii)                   (* a literal character *)
| Dot                               (* [.] *)
| Cls (neg : bool) (c : cclass)     (* [\w \s \d] and, negated, [\W \S \D] *)
| WordB                             (* [\b] *)
| Cat (r1 r2 : regex)
| Alt (r1 r2 : regex)               (* [r1|r2] *)
| Star (r : regex).                 (* [r*], greedy *)

(** A literal string as a pattern. *)
Fixpoint lit (t : text) : regex :=
  match t with
  | [] => Eps
  | [c] => Chr c
  | c :: t' => Cat (Chr c) (lit t')
  end.

Definition isdigit (a : ascii) : bool :=
  let n := nat_of_ascii a in (48 <=? n) && (n <=? 57).

Definition isupper (a : ascii) : bool :=
  let n := nat_of_ascii a in (65 <=? n) && (n <=? 90).

Definition islower (a : ascii) : bool :=
  let n := nat_of_ascii a in (97 <=? n) && (n <=? 122).

(** The Latin-1 characters above 127 that are alphanumeric
    ([str.isalnum]): the ordinal indicators, the superscript digits, the
    micro sign, the fractions and the letters. *)
Definition isalnum_latin1 (a : ascii) : bool :=
  let n := nat_of_ascii a in
  (n =? 170) || (n =? 178) || (n =? 179) || (n =? 181) || (n =? 185)
  || (n =? 186) || ((188 <=? n) && (n <=? 190))
  || ((192 <=? n) && (n <=? 214)) || ((216 <=? n) && (n <=? 246))
  || (248 <=? n).

(** The upper-case letters of Latin-1 above 127. *)
Definition isupper_latin1 (a : ascii) : bool :=
  let n := nat_of_ascii a in
  ((192 <=? n) && (n <=? 214)) || ((216 <=? n) && (n <=? 222)).

(** [\w]: the alphanumeric characters and the underscore. *)
Definition isword (a : ascii) : bool :=
  isdigit a || isupper a || islower a || (nat_of_ascii a =? 95)
  || isalnum_latin1 a.

(** The lower-case form of a character: what [str.lower] gives and what
    [re.IGNORECASE] compares. *)
Definition lower (a : ascii) : ascii :=
  if isupper a || isupper_latin1 a
  then ascii_of_nat (nat_of_ascii a + 32) else a.

Definition chr_eq (fl : RegexFlag) (c a : ascii) : bool :=
  if ignorecase fl then Ascii.eqb (lower c) (lower a) else Ascii.eqb c a.

Definition in_class (c : cclass) (a : ascii) : bool :=
  match c with
  | CWord => isword a
  | CSpace => isspace a
  | CDigit => isdigit a
  end.

Definition newline : ascii := ascii_of_nat 10.

Definition dot_ok (fl : RegexFlag) (a : ascii) : bool :=
  dotall fl || negb (Ascii.eqb a newline).

Definition word_at (t : text) (i : nat) : bool :=
  match nth_error t i with
  | Some a => isword a
  | None => false
  end.

(** [\b] holds at offset [i] when exactly one of the characters before and
    at [i] is a word character (a missing character is not one). *)
Definition is_boundary (t : text) (i : nat) : bool :=
  xorb (match i with O => false | S p => word_at t p end) (word_at t i).

(** One character test at offset [i], then the continuation. *)
Definition step_char (p : ascii -> bool) (t : text) (i : nat)
           (k : nat -> option nat) : option nat :=
  match nth_error t i with
  | Some a => if p a then k (S i) else None
  | None => None
  end.

(** The iteration of [r*]: [body] matches [r] once; at most [n] further
    iterations are tried.  After an iteration that consumed a character
    the next one is tried; after one that consumed none the matcher goes
    on with what follows the star. *)
Fixpoint star_loop (body : nat -> (nat -> option nat) -> option nat)
         (k : nat -> option nat) (n i : nat) {struct n} : option nat :=
  match n with
  | O => k i
  | S n' =>
      match body i (fun j => if i <? j then star_loop body k n' j else k j)
      with
      | Some e => Some e
      | None => k i
      end
  end.

(** [re_match fl r t i k]: match [r] at offset [i] of [t], then continue
    with [k] at the offset reached; [None] makes the matcher backtrack. *)
Fixpoint re_match (fl : RegexFlag) (r : regex) (t : text) (i : nat)
         (k : nat -> option nat) {struct r} : option nat :=
  match r with
  | Eps => k i
  | Chr c => step_char (chr_eq fl c) t i k
  | Dot => step_char (dot_ok fl) t i k
  | Cls neg c => step_char (fun a => xorb neg (in_class c a)) t i k
  | WordB => if is_boundary t i then k i else None
  | Cat r1 r2 => re_match fl r1 t i (fun j => re_match fl r2 t j k)
  | Alt r1 r2 =>
      match re_match fl r1 t i k with
      | Some e => Some e
      | None => re_match fl r2 t i k
      end
  | Star r1 => star_loop (re_match fl r1 t) k (S (length t - i)) i
  end.

(** The scanner behind [search] and [finditer]: try the offsets
    [i, i+1, ...] ([n] of them) and return the span of the first match.
    [adv] (the scanner's must-advance state after an empty match) forbids
    an empty match at the very first offset. *)
Fixpoint scan (fl : RegexFlag) (r : regex) (t : text) (n : nat) (i : nat)
         (adv : bool) : option (nat * nat) :=
  match n with
  | O => None
  | S n' =>
      match re_match fl r t i
              (fun j => if adv && (j =? i) then None else Some j) with
      | Some e => Some (i, e)
      | None => scan fl r t n' (S i) false
      end
  end.

(** [pattern.search(t)]: the span of the leftmost match. *)
Definition search (fl : RegexFlag) (r : regex) (t : text)
  : option (nat * nat) :=
  scan fl r t (S (length t)) 0 false.

(** [pattern.finditer(t)]: the spans of the non-overlapping matches, left
    to right; an empty match may follow a non-empty one at the same
    offset, never another empty one. *)
Fixpoint finditer_loop (fl : RegexFlag) (r : regex) (t : text) (fuel : nat)
         (i : nat) (adv : bool) : list (nat * nat) :=
  match fuel with
  | O => []
  | S f =>
      match scan fl r t (S (length t) - i) i adv with
      | None => []
      | Some (s, e) => (s, e) :: finditer_loop fl r t f e (s =? e)
      end
  end.

Definition finditer (fl : RegexFlag) (r : regex) (t : text)
  : list (nat * nat) :=
  finditer_loop fl r t (2 * length t + 2) 0 false.

(** [re.findall(r, t, fl)]: one item per match of [finditer]; only their
    number is used by the package. *)
Definition findall (fl : RegexFlag) (r : regex) (t : text) : list text :=
  map (fun se => firstn (snd se - fst se) (skipn (fst se) t))
      (finditer fl r t).

End Re.

Import Py Re.

(** ** Exceptions and diagnostics *)

Inductive exn := ValueError (msg : string).

Inductive result (A : Type) := Ok (a : A) | Raise (e : exn).
Arguments Ok {A} a.
Arguments Raise {A} e.

(** One [logging.warning] record of [_find_start_position]: the marker
    fragment and the number of times it was found. *)
Record warning := Warning { w_key : regex; w_count : nat }.

(** ** [_pattern.py] *)

(** A compiled pattern: what [re.compile(pattern, flags=flags)] returns. *)
Record pattern := Compiled { source : regex; pat_flags : RegexFlag }.

Definition pattern_search (p : pattern) (t : text) : option (nat * nat) :=
  search (pat_flags p) (source p) t.

Definition pattern_finditer (p : pattern) (t : text) : list (nat * nat) :=
  finditer (pat_flags p) (source p) t.

(** ['|'.join(keys)] for a list with first element [k]. *)
Fixpoint join_alt (k : regex) (ks : list regex) : regex :=
  match ks with
  | [] => k
  | k' :: ks' => Alt k (join_alt k' ks')
  end.

(** [\b( ... )\b] *)
Definition anchored (r : regex) : regex := Cat WordB (Cat r WordB).

Definition _pattern_keys (keys : list regex) (word_boundary : bool)
           (fl : RegexFlag) : result pattern :=
  match keys with
  | [] => Raise (ValueError "keys must have at least one element")
  | k :: ks =>
      if word_boundary
      then Ok (Compiled (anchored (join_alt k ks)) fl)
      else Ok (Compiled (join_alt k ks) fl)
  end.

(** ** Start and end positions *)

(** The loop of [_find_start_position] that warns about a start pattern
    found two times or more. *)
Fixpoint warn_duplicates (t : text) (keys : list regex) (fl : RegexFlag)
  : list warning :=
  match keys with
  | [] => []
  | key :: keys' =>
      let count := length (findall fl key t) in
      (if 2 <=? count then [Warning key count] else [])
        ++ warn_duplicates t keys' fl
  end.

Definition _find_start_position (t : text) (keys : option (list regex))
           (word_boundary : bool) (fl : RegexFlag)
  : list warning * result (Z * Z) :=
  match keys with
  | None => ([], Ok (0, 0)%Z)
  | Some keys =>
      let log := warn_duplicates t keys fl in
      match _pattern_keys keys word_boundary fl with
      | Raise e => (log, Raise e)
      | Ok p =>
          match pattern_search p t with
          | None => (log, Ok (-1, -1)%Z)
          | Some (s, e) => (log, Ok (Z.of_nat s, Z.of_nat e))
          end
      end
  end.

Definition _find_start_position_all (t : text) (keys : option (list regex))
           (word_boundary : bool) (fl : RegexFlag) : result (list (Z * Z)) :=
  match keys with
  | None => Ok [(0, 0)%Z]
  | Some keys =>
      match _pattern_keys keys word_boundary fl with
      | Raise e => Raise e
      | Ok p =>
          let matches := pattern_finditer p t in
          if negb (truthy matches) then Ok []
          else Ok (map (fun m => (Z.of_nat (fst m), Z.of_nat (snd m)))
                       matches)
      end
  end.

Definition _find_end_position_greedy (t : text) (keys : option (list regex))
           (start_pos : Z) (word_boundary : bool) (fl : RegexFlag) : result Z :=
  match keys with
  | None => Ok (len t)
  | Some keys =>
      match _pattern_keys keys word_boundary fl with
      | Raise e => Raise e
      | Ok p =>
          match pattern_search p (slice_from t start_pos) with
          | None => Ok (len t)
          | Some (s, _) => Ok (start_pos + Z.of_nat s)%Z
          end
      end
  end.

(** The [for key in keys] loop of [_find_end_position_sequential]. *)
Fixpoint sequential_loop (t search_text : text) (keys : list regex)
         (start_pos : Z) (word_boundary : bool) (fl : RegexFlag) : result Z :=
  match keys with
  | [] => Ok (len t)
  | key :: keys' =>
      match _pattern_keys [key] word_boundary fl with
      | Raise e => Raise e
      | Ok p =>
          match pattern_search p search_text with
          | Some (s, _) => Ok (start_pos + Z.of_nat s)%Z
          | None =>
              sequential_loop t search_text keys' start_pos word_boundary fl
          end
      end
  end.

Definition _find_end_position_sequential (t : text)
           (keys : option (list regex)) (start_pos : Z)
           (word_boundary : bool) (fl : RegexFlag) : result Z :=
  match keys with
  | None => Ok (len t)
  | Some keys =>
      sequential_loop t (slice_from t start_pos) keys start_pos
                      word_boundary fl
  end.

(** ** [SectionExtractor] *)

Record SectionExtractor := {
  start_keys : option (list regex);
  end_keys : option (list regex);
  include_start_keys : bool;
  word_boundary : bool;
  flags : RegexFlag;
  match_strategy : string
}.

(** [SectionExtractor.__init__].  The message of the [ValueError] also
    lists the admissible values, in an order Python leaves open; the model
    keeps the part that is determined. *)
Definition __init__ (start_keys end_keys : option (list regex))
           (include_start_keys word_boundary : bool) (fl : RegexFlag)
           (match_strategy : string) : result SectionExtractor :=
  if existsb (String.eqb match_strategy) ["greedy"; "sequential"]%string
  then Ok {| start_keys := start_keys; end_keys := end_keys;
             include_start_keys := include_start_keys;
             word_boundary := word_boundary; flags := fl;
             match_strategy := match_strategy |}
  else Raise (ValueError ("Invalid value: " ++ match_strategy)).

(** The end position under the extractor's strategy. *)
Definition find_end (self : SectionExtractor) (t : text) (start_pos : Z)
           (wb : bool) (fl : RegexFlag) : result Z :=
  if String.eqb (match_strategy self) "greedy"
  then _find_end_position_greedy t (end_keys self) start_pos wb fl
  else _find_end_position_sequential t (end_keys self) start_pos wb fl.

(** [SectionExtractor.extract].  The calls of the position finders pass
    neither [self.word_boundary] nor [self.flags]: they run with the
    defaults of those functions, [word_boundary=True] and
    [flags=re.IGNORECASE]. *)
Definition extract (self : SectionExtractor) (t : text)
  : list warning * result text :=
  match _find_start_position t (start_keys self) true IGNORECASE with
  | (log, Raise e) => (log, Raise e)
  | (log, Ok (start_idx_start, start_idx_end)) =>
      if (start_idx_start =? -1)%Z then (log, Ok [])
      else
        match find_end self t start_idx_start true IGNORECASE with
        | Raise e => (log, Raise e)
        | Ok end_idx =>
            let section_start :=
              if include_start_keys self then start_idx_start
              else start_idx_end in
            (log, Ok (strip (slice t section_start end_idx)))
        end
  end.

(** The loop of [extract_all] over the start positions; [sections] is the
    list built so far. *)
Fixpoint extract_all_loop (self : SectionExtractor) (t : text)
         (start_positions : list (Z * Z)) (sections : list text)
  : result (list text) :=
  match start_positions with
  | [] => Ok sections
  | (start_idx_start, start_idx_end) :: rest =>
      match find_end self t start_idx_start (word_boundary self)
                     (flags self) with
      | Raise e => Raise e
      | Ok end_idx =>
          let section_start :=
            if include_start_keys self then start_idx_start
            else start_idx_end in
          let section := strip (slice t section_start end_idx) in
          extract_all_loop self t rest
            (if truthy section then sections ++ [section] else sections)
      end
  end.

(** [SectionExtractor.extract_all] *)
Definition extract_all (self : SectionExtractor) (t : text)
  : result (list text) :=
  match _find_start_position_all t (start_keys self) (word_boundary self)
                                 (flags self) with
  | Raise e => Raise e
  | Ok start_positions =>
      if negb (truthy start_positions) then Ok []
      else extract_all_loop self t start_positions []
  end.


(** ** Vocabulary of the statements *)

(** The compiled pattern [p] matches at offset [i] of [t]. *)
Definition matches_at (p : pattern) (t : text) (i : nat) : bool :=
  match re_match (pat_flags p) (source p) t i Some with
  | Some _ => true
  | None => false
  end.

(** The marker [key], compiled on its own, matches at offset [i] of [t]. *)
Definition marker_matches_at (key : regex) (wb : bool) (fl : RegexFlag)
           (t : text) (i : nat) : bool :=
  match _pattern_keys [key] wb fl with
  | Ok p => matches_at p t i
  | Raise _ => false
  end.

(** The marker [key] matches nowhere in [t]. *)
Definition marker_absent (key : regex) (wb : bool) (fl : RegexFlag) (t : text)
  : Prop :=
  forall i, i <= length t -> marker_matches_at key wb fl t i = false.

(** [i] is the least offset of [t] at which a marker of [keys] matches. *)
Definition earliest_match (keys : list regex) (wb : bool) (fl : RegexFlag)
           (t : text) (i : nat) : Prop :=
  i <= length t
  /\ (exists key, In key keys /\ marker_matches_at key wb fl t i = true)
  /\ (forall j key, j < i -> In key keys ->
                    marker_matches_at key wb fl t j = false).

(** [fl'] allows every match [fl] allows. *)
Definition flags_le (fl fl' : RegexFlag) : Prop :=
  (ignorecase fl = true -> ignorecase fl' = true)
  /\ (dotall fl = true -> dotall fl' = true).

(** What the greedy end finder is to return on a marker list: the offset
    of the earliest match of any marker in the remainder [t[p:]], or the
    length of the text when no marker matches there. *)
Definition greedy_end_spec (t : text) (keys : list regex) (p : Z)
           (wb : bool) (fl : RegexFlag) : Prop :=
  let rest := slice_from t p in
  let r := _find_end_position_greedy t (Some keys) p wb fl in
  (exists i, earliest_match keys wb fl rest i /\ r = Ok (p + Z.of_nat i)%Z)
  \/ ((forall key, In key keys -> marker_absent key wb fl rest)
      /\ r = Ok (len t)).

(** An extractor with the default flags. *)
Definition extractor (start_keys end_keys : option (list regex))
           (include_start_keys word_boundary : bool)
           (match_strategy : string) : SectionExtractor :=
  {| start_keys := start_keys; end_keys := end_keys;
     include_start_keys := include_start_keys;
     word_boundary := word_boundary; flags := IGNORECASE;
     match_strategy := match_strategy |}.

(** A marker given as literal text. *)
Definition marker (s : string) : regex := lit (str s).

(** The report of the specification whose sections are out of order. *)
Definition report_reversed : text :=
  str "HISTORY: a" ++ [newline] ++ str "IMPRESSION: b" ++ [newline]
      ++ str "FINDINGS: c".

(** The section cut for the start span [sp] and the end offset [e]:
    [text[section_start:end_idx].strip()]. *)
Definition candidate (self : SectionExtractor) (t : text)
           (c : (Z * Z) * Z) : text :=
  let '(sp, e) := c in
  strip (slice t (if include_start_keys self then fst sp else snd sp) e).

(** The end offset [e] is the one resolved from the start of the span
    [sp] itself, with the extractor's own options. *)
Definition end_resolved (self : SectionExtractor) (t : text)
           (sp : Z * Z) (e : Z) : Prop :=
  find_end self t (fst sp) (word_boundary self) (flags self) = Ok e.

(** The conversation of the specification. *)
Definition conversation : text :=
  str "Human: Hi" ++ [newline] ++ str "AI: Hello" ++ [newline]
      ++ str "Human: Bye" ++ [newline] ++ str "AI: See ya".




(** The extractor [self] with another [word_boundary] option. *)
Definition set_word_boundary (self : SectionExtractor) (b : bool)
  : SectionExtractor :=
  {| start_keys := start_keys self; end_keys := end_keys self;
     include_start_keys := include_start_keys self;
     word_boundary := b; flags := flags self;
     match_strategy := match_strategy self |}.

(** The text of the documentation's word-boundary example. *)
Definition finding_impression : text :=
  [newline] ++ str "FINDING Normal" ++ [newline]
            ++ str "IMPRESSION Abnormal" ++ [newline].

(** A text with "history" three times, the first time inside a word. *)
Definition prehistory : text := str "prehistory history History".



(** The extractor [self] with another [include_start_keys] option. *)
Definition set_include (self : SectionExtractor) (b : bool)
  : SectionExtractor :=
  {| start_keys := start_keys self; end_keys := end_keys self;
     include_start_keys := b;
     word_boundary := word_boundary self; flags := flags self;
     match_strategy := match_strategy self |}.

(** The substring the start pattern of [extract] matches in [t], when it
    matches. *)
Definition start_match (self : SectionExtractor) (t : text) : option text :=
  match snd (_find_start_position t (start_keys self) true IGNORECASE) with
  | Ok (s, e) => if (s =? -1)%Z then None else Some (slice t s e)
  | Raise _ => None
  end.

(** Cut the marker text [m] off the front of the trimmed section [s]:
    the marker stands there as the trim left it, without the whitespace
    it began with. *)
Definition strip_leading (m s : text) : text := skipn (length (lstrip m)) s.

Definition starts_with_space (m : text) : bool :=
  match m with
  | a :: _ => isspace a
  | [] => false
  end.

(** Extraction without the start marker is extraction with it, the
    matched marker text [m] removed from the front and the rest stripped
    again. *)
Definition include_exclude_agree (self : SectionExtractor) (t m : text)
  : Prop :=
  match snd (extract (set_include self true) t) with
  | Ok with_marker =>
      snd (extract (set_include self false) t)
      = Ok (strip (strip_leading m with_marker))
  | Raise x => snd (extract (set_include self false) t) = Raise x
  end.

(** [\W*] *)
Definition nonword_star : regex := Star (Cls true CWord).

(** A pathology report in markdown, as in the documentation. *)
Definition pathology : text :=
  str "SPECIMEN: core biopsy" ++ [newline]
      ++ str "**MICROSCOPIC EXAMINATION:** normal tissue".

(** The start marker [\W*MICROSCOPIC EXAMINATION\W*] of the
    documentation. *)
Definition microscopic : regex :=
  Cat nonword_star (Cat (marker "MICROSCOPIC EXAMINATION") nonword_star).

(** ** Further functions of the package *)

(** [extract_section], the function the class replaces.  Like
    [SectionExtractor.extract] it calls the position finders with their
    default [word_boundary] and [flags]; the match strategy is checked
    after the start position is known. *)
Definition extract_section (t : text)
           (start_keys end_keys : option (list regex))
           (include_start_keys word_boundary : bool) (fl : RegexFlag)
           (match_strategy : string) : list warning * result text :=
  match _find_start_position t start_keys true IGNORECASE with
  | (log, Raise e) => (log, Raise e)
  | (log, Ok (start_idx_start, start_idx_end)) =>
      if (start_idx_start =? -1)%Z then (log, Ok [])
      else if negb (existsb (String.eqb match_strategy)
                            ["greedy"; "sequential"]%string)
      then (log, Raise (ValueError ("Invalid value: " ++ match_strategy)))
      else
        match (if String.eqb match_strategy "greedy"
               then _find_end_position_greedy t end_keys start_idx_start
                                              true IGNORECASE
               else _find_end_position_sequential t end_keys start_idx_start
                                                  true IGNORECASE) with
        | Raise e => (log, Raise e)
        | Ok end_idx =>
            let section_start :=
              if include_start_keys then start_idx_start
              else start_idx_end in
            (log, Ok (strip (slice t section_start end_idx)))
        end
  end.

(** [_get_first_key_match]: [match.group(1)] of the first match, or
    [None].  Group 1 is the parenthesis [_pattern_keys] puts around the
    alternation; the anchors outside it match no character, so its text is
    the text of the whole match. *)
Definition _get_first_key_match (t : text) (keys : option (list regex))
           (word_boundary : bool) (fl : RegexFlag) : result (option text) :=
  match keys with
  | None => Ok None
  | Some keys =>
      match _pattern_keys keys word_boundary fl with
      | Raise e => Raise e
      | Ok p =>
          match pattern_search p t with
          | Some (s, e) => Ok (Some (firstn (e - s) (skipn s t)))
          | None => Ok None
          end
      end
  end.

(** One [logging.warning] record of [_warn_dup_pattern].  Its message,
    "Match `%s` pattern %d times", is not the message of
    [_find_start_position]; the two have the key and the count in
    common. *)
Record match_warning := MatchWarning { m_key : regex; m_count : nat }.

(** [_warn_dup_pattern]: the loop returns at the first key found fewer
    than two times. *)
Fixpoint _warn_dup_pattern (t : text) (keys : list regex)
         (word_boundary : bool) (fl : RegexFlag) : list match_warning :=
  match keys with
  | [] => []
  | key :: keys' =>
      let count := length (findall fl key t) in
      if 2 <=? count
      then MatchWarning key count
             :: _warn_dup_pattern t keys' word_boundary fl
      else []
  end.

(** ** Vocabulary of the further statements *)

(** [sec] is a contiguous part of [t]. *)
Definition substring (sec t : text) : Prop :=
  exists before after, t = before ++ sec ++ after.

(** [sec] neither begins nor ends with a whitespace character. *)
Definition stripped (sec : text) : Prop :=
  starts_with_space sec = false /\ starts_with_space (rev sec) = false.


(** [text.lower()] *)
Definition lower_text (t : text) : text := map lower t.

(** * Properties of the matcher *)

(** A star whose body can match the empty string: after an empty
    iteration the matcher goes on with what follows the star, and
    [finditer] reports the empty matches that follow non-empty ones. *)
Example finditer_star_of_star :
  finditer IGNORECASE (Star (Alt (Star (Chr "a")) (Chr "b"))) (str "aabab")
  = [(0, 2); (2, 2); (2, 4); (4, 4); (4, 5); (5, 5)]
  /\ finditer IGNORECASE (Cat (Star (Star (Chr "a"))) (Chr "b")) (str "aab")
     = [(0, 3)].
Proof. split; vm_compute; reflexivity. Qed.

(** The Latin-1 whitespace beyond ASCII is whitespace for [\W] and for
    [strip]. *)
Example latin1_whitespace :
  finditer IGNORECASE
    (Cat (Star (Cls true CWord)) (Cat (Chr "x") (Star (Cls true CWord))))
    [" "; "x"; ascii_of_nat 133; ascii_of_nat 160; "y"]%char
  = [(0, 4)]
  /\ strip [ascii_of_nat 160; "x"; ascii_of_nat 133]%char = ["x"%char].
Proof. split; vm_compute; reflexivity. Qed.

Section Matcher.

Variable t : text.

Lemma step_char_mono (p p' : ascii -> bool) i k k' :
  (forall a, p a = true -> p' a = true) ->
  (forall j, k j <> None -> k' j <> None) ->
  step_char p t i k <> None -> step_char p' t i k' <> None.
Proof.
  intros Hp Hk. unfold step_char.
  destruct (nth_error t i) as [a|]; [|congruence].
  destruct (p a) eqn:E; [|congruence].
  rewrite (Hp a E). apply Hk.
Qed.

Lemma star_loop_mono body body' k k' :
  (forall i c c', (forall j, c j <> None -> c' j <> None) ->
                  body i c <> None -> body' i c' <> None) ->
  (forall j, k j <> None -> k' j <> None) ->
  forall n i, star_loop body k n i <> None -> star_loop body' k' n i <> None.
Proof.
  intros Hb Hk. induction n as [|n IH]; intros i; simpl.
  - apply Hk.
  - intros H.
    destruct (body i (fun j => if i <? j then star_loop body k n j else k j))
      as [e|] eqn:E.
    + assert (N : body' i (fun j => if i <? j then star_loop body' k' n j
                                    else k' j) <> None).
      { apply Hb with (c := fun j => if i <? j then star_loop body k n j
                                     else k j).
        - intros j. destruct (i <? j); [apply IH | apply Hk].
        - congruence. }
      destruct (body' i _); congruence.
    + destruct (body' i _); [congruence | now apply Hk].
Qed.

Lemma lower_eq_of_eqb c a :
  Ascii.eqb c a = true -> Ascii.eqb (lower c) (lower a) = true.
Proof.
  intros H. apply Ascii.eqb_eq in H. subst. apply Ascii.eqb_refl.
Qed.

Lemma chr_eq_mono fl fl' c a :
  flags_le fl fl' -> chr_eq fl c a = true -> chr_eq fl' c a = true.
Proof.
  intros [Hi _]. unfold chr_eq.
  destruct (ignorecase fl) eqn:E.
  - now rewrite (Hi eq_refl).
  - intros H. destruct (ignorecase fl'); [now apply lower_eq_of_eqb | exact H].
Qed.

Lemma dot_ok_mono fl fl' a :
  flags_le fl fl' -> dot_ok fl a = true -> dot_ok fl' a = true.
Proof.
  intros [_ Hd]. unfold dot_ok.
  destruct (dotall fl) eqn:E.
  - now rewrite (Hd eq_refl).
  - simpl. intros ->. apply orb_true_r.
Qed.

(** A match survives a more liberal continuation and more liberal flags. *)
Lemma re_match_mono fl fl' r :
  flags_le fl fl' ->
  forall i k k',
    (forall j, k j <> None -> k' j <> None) ->
    re_match fl r t i k <> None -> re_match fl' r t i k' <> None.
Proof.
  intros Hfl.
  induction r as [| c | | neg c | | r1 IH1 r2 IH2 | r1 IH1 r2 IH2 | r1 IH1];
    intros i k k' Hk; cbn [re_match].
  - apply Hk.
  - apply step_char_mono; [intros a; now apply chr_eq_mono | exact Hk].
  - apply step_char_mono; [intros a; now apply dot_ok_mono | exact Hk].
  - apply step_char_mono; [tauto | exact Hk].
  - destruct (is_boundary t i); [apply Hk | congruence].
  - apply IH1. intros j. now apply IH2.
  - intros H.
    destruct (re_match fl r1 t i k) eqn:E1.
    + assert (N : re_match fl' r1 t i k' <> None)
        by (apply (IH1 i k k' Hk); congruence).
      destruct (re_match fl' r1 t i k'); congruence.
    + destruct (re_match fl' r1 t i k'); [congruence|].
      now apply (IH2 i k k' Hk).
  - apply star_loop_mono; [|exact Hk].
    intros j c c' Hc. now apply IH1.
Qed.

Lemma flags_le_refl fl : flags_le fl fl.
Proof. split; auto. Qed.

Lemma re_match_alt fl r1 r2 i k :
  re_match fl (Alt r1 r2) t i k <> None <->
  re_match fl r1 t i k <> None \/ re_match fl r2 t i k <> None.
Proof.
  simpl. destruct (re_match fl r1 t i k); split; intros H.
  - left; congruence.
  - congruence.
  - now right.
  - destruct H as [H|H]; [congruence | exact H].
Qed.

Lemma join_alt_match fl key keys i k :
  re_match fl (join_alt key keys) t i k <> None <->
  exists r, In r (key :: keys) /\ re_match fl r t i k <> None.
Proof.
  revert key. induction keys as [|k' ks IH]; intros key.
  - simpl. split.
    + intros H. exists key. auto.
    + intros (r & [<-|[]] & H). exact H.
  - change (join_alt key (k' :: ks)) with (Alt key (join_alt k' ks)).
    rewrite re_match_alt, IH. split.
    + intros [H|(r & Hin & H)].
      * exists key. split; [now left | exact H].
      * exists r. split; [now right | exact H].
    + intros (r & [<-|Hin] & H); [now left|].
      right. exists r. auto.
Qed.

(** A scan without the must-advance state finds the least offset at which
    the pattern matches. *)
Lemma scan_none fl r :
  forall n i,
    scan fl r t n i false = None <->
    (forall j, i <= j < i + n -> re_match fl r t j Some = None).
Proof.
  induction n as [|n IH]; intros i; simpl.
  - split; [intros _ j Hj; lia | reflexivity].
  - change (re_match fl r t i (fun j => Some j))
      with (re_match fl r t i Some).
    destruct (re_match fl r t i Some) as [e|] eqn:E.
    + split; [discriminate|]. intros H.
      rewrite (H i) in E by lia. discriminate.
    + rewrite IH. split.
      * intros H j Hj. destruct (Nat.eq_dec j i) as [->|N]; [exact E|].
        apply H. lia.
      * intros H j Hj. apply H. lia.
Qed.

Lemma scan_some fl r :
  forall n i s e,
    scan fl r t n i false = Some (s, e) <->
    (i <= s < i + n /\ re_match fl r t s Some = Some e
     /\ forall j, i <= j < s -> re_match fl r t j Some = None).
Proof.
  induction n as [|n IH]; intros i s e; simpl.
  - split; [discriminate | intros [H _]; lia].
  - change (re_match fl r t i (fun j => Some j))
      with (re_match fl r t i Some).
    destruct (re_match fl r t i Some) as [e0|] eqn:E.
    + split.
      * intros H. injection H as <- <-.
        split; [lia|]. split; [exact E|]. intros j Hj; lia.
      * intros (Hs & He & Hmin).
        destruct (Nat.eq_dec s i) as [->|N].
        -- congruence.
        -- rewrite (Hmin i) in E by lia. discriminate.
    + rewrite IH. split.
      * intros (Hs & He & Hmin). split; [lia|]. split; [exact He|].
        intros j Hj. destruct (Nat.eq_dec j i) as [->|N]; [exact E|].
        apply Hmin. lia.
      * intros (Hs & He & Hmin).
        assert (s <> i) by congruence.
        split; [lia|]. split; [exact He|]. intros j Hj. apply Hmin. lia.
Qed.

End Matcher.

(** * Spans *)

Lemma star_loop_bounds (body : nat -> (nat -> option nat) -> option nat)
      (k : nat -> option nat) (m : nat) :
  (forall i c e, body i c = Some e ->
                 exists j, i <= j <= Nat.max i m /\ c j = Some e) ->
  forall n i e, star_loop body k n i = Some e ->
                exists j, i <= j <= Nat.max i m /\ k j = Some e.
Proof.
  intros Hb. induction n as [|n IH]; intros i e; simpl.
  - intros H. exists i. split; [lia | exact H].
  - destruct (body i (fun j => if i <? j then star_loop body k n j else k j))
      as [e'|] eqn:E.
    + intros H. injection H as ->.
      apply Hb in E as (j & Hj & Hc).
      destruct (i <? j) eqn:L; [|exists j; split; [lia | exact Hc]].
      apply IH in Hc as (j' & Hj' & Hk). exists j'. split; [lia | exact Hk].
    + intros H. exists i. split; [lia | exact H].
Qed.

(** The continuation is entered at an offset between the start offset
    and the end of the text. *)
Lemma re_match_bounds fl r t :
  forall i k e, re_match fl r t i k = Some e ->
                exists j, i <= j <= Nat.max i (length t) /\ k j = Some e.
Proof.
  assert (Hstep : forall p i k e, step_char p t i k = Some e ->
              exists j, i <= j <= Nat.max i (length t) /\ k j = Some e).
  { intros p i k e. unfold step_char.
    destruct (nth_error t i) as [a|] eqn:E; [|discriminate].
    destruct (p a); [|discriminate]. intros H. exists (S i).
    assert (i < length t) by (apply nth_error_Some; congruence).
    split; [lia | exact H]. }
  induction r as [| c | | neg c | | r1 IH1 r2 IH2 | r1 IH1 r2 IH2 | r1 IH1];
    intros i k e; cbn [re_match].
  - intros H. exists i. split; [lia | exact H].
  - apply Hstep.
  - apply Hstep.
  - apply Hstep.
  - destruct (is_boundary t i); [|discriminate].
    intros H. exists i. split; [lia | exact H].
  - intros H. apply IH1 in H as (j1 & Hj1 & H).
    apply IH2 in H as (j2 & Hj2 & H). exists j2. split; [lia | exact H].
  - destruct (re_match fl r1 t i k) as [e1|] eqn:E.
    + intros H. injection H as ->. now apply IH1.
    + apply IH2.
  - apply star_loop_bounds. exact IH1.
Qed.

Lemma search_bounds fl r t s e :
  search fl r t = Some (s, e) -> s <= e <= length t.
Proof.
  unfold search. rewrite scan_some. intros (Hs & He & _).
  apply re_match_bounds in He as (j & Hj & H). injection H as <-. lia.
Qed.

Lemma finditer_search_none fl r t :
  search fl r t = None -> finditer fl r t = [].
Proof.
  unfold finditer, search. intros H.
  replace (2 * length t + 2) with (S (2 * length t + 1)) by lia.
  cbn [finditer_loop]. rewrite Nat.sub_0_r. now rewrite H.
Qed.

Lemma finditer_search_some fl r t s e :
  search fl r t = Some (s, e) ->
  exists l, finditer fl r t = (s, e) :: l.
Proof.
  unfold finditer, search. intros H.
  replace (2 * length t + 2) with (S (2 * length t + 1)) by lia.
  cbn [finditer_loop]. rewrite Nat.sub_0_r. rewrite H. eauto.
Qed.

(** * The remainder of a text *)

Lemma word_at_skipn t a i : word_at (skipn a t) i = word_at t (a + i).
Proof. unfold word_at. now rewrite nth_error_skipn. Qed.

(** Past its first offset, the remainder has the word boundaries of the
    text. *)
Lemma is_boundary_skipn t a i :
  1 <= i -> is_boundary (skipn a t) i = is_boundary t (a + i).
Proof.
  intros Hi. destruct i as [|p]; [lia|]. unfold is_boundary.
  rewrite Nat.add_succ_r. now rewrite !word_at_skipn, Nat.add_succ_r.
Qed.

Lemma step_char_skipn p t a i ks kf :
  ks (S i) = kf (a + S i) ->
  step_char p (skipn a t) i ks = step_char p t (a + i) kf.
Proof.
  intros H. unfold step_char. rewrite nth_error_skipn.
  destruct (nth_error t (a + i)) as [c|]; [|reflexivity].
  destruct (p c); [|reflexivity]. now rewrite H, Nat.add_succ_r.
Qed.

Lemma star_loop_shift
      (body_s body_f : nat -> (nat -> option nat) -> option nat) a :
  (forall i cs cf, 1 <= i -> (forall j, i <= j -> cs j = cf (a + j)) ->
                   body_s i cs = body_f (a + i) cf) ->
  forall n i ks kf,
    1 <= i -> (forall j, i <= j -> ks j = kf (a + j)) ->
    star_loop body_s ks n i = star_loop body_f kf n (a + i).
Proof.
  intros Hb. induction n as [|n IH]; intros i ks kf Hi Hk; simpl.
  - now apply Hk.
  - rewrite (Hb i _ (fun j => if a + i <? j then star_loop body_f kf n j
                              else kf j) Hi).
    + now rewrite (Hk i (Nat.le_refl i)).
    + intros j Hj.
      replace (a + i <? a + j) with (i <? j).
      * destruct (i <? j); [|now apply Hk]. apply IH; [lia|].
        intros j' Hj'. apply Hk. lia.
      * destruct (i <? j) eqn:E; symmetry.
        -- apply Nat.ltb_lt. apply Nat.ltb_lt in E. lia.
        -- apply Nat.ltb_ge. apply Nat.ltb_ge in E. lia.
Qed.

(** Matching in the remainder [t[a:]] from an offset [i >= 1] is matching
    in [t] from [a + i]. *)
Lemma re_match_skipn fl r t a :
  forall i ks kf,
    1 <= i -> (forall j, i <= j -> ks j = kf (a + j)) ->
    re_match fl r (skipn a t) i ks = re_match fl r t (a + i) kf.
Proof.
  induction r as [| c | | neg c | | r1 IH1 r2 IH2 | r1 IH1 r2 IH2 | r1 IH1];
    intros i ks kf Hi Hk; cbn [re_match].
  - now apply Hk.
  - apply step_char_skipn. apply Hk. lia.
  - apply step_char_skipn. apply Hk. lia.
  - apply step_char_skipn. apply Hk. lia.
  - rewrite (is_boundary_skipn t a i Hi).
    destruct (is_boundary t (a + i)); [now apply Hk | reflexivity].
  - apply IH1; [exact Hi|]. intros j Hj. apply IH2; [lia|].
    intros j' Hj'. apply Hk. lia.
  - rewrite (IH1 i ks kf Hi Hk), (IH2 i ks kf Hi Hk). reflexivity.
  - rewrite length_skipn.
    replace (length t - a - i) with (length t - (a + i)) by lia.
    apply star_loop_shift; [|exact Hi|exact Hk].
    intros i' cs cf Hi' Hc. now apply IH1.
Qed.

(** Strictly after the start of the remainder, a marker matches in the
    remainder where it matches in the text. *)
Lemma marker_matches_at_skipn key wb fl t a i :
  1 <= i ->
  marker_matches_at key wb fl (skipn a t) i
  = marker_matches_at key wb fl t (a + i).
Proof.
  intros Hi. unfold marker_matches_at.
  destruct (_pattern_keys [key] wb fl) as [p|x]; [|reflexivity].
  unfold matches_at.
  rewrite <- (re_match_skipn (pat_flags p) (source p) t a i
                (fun j => Some (a + j)) Some Hi (fun j _ => eq_refl)).
  destruct (re_match (pat_flags p) (source p) (skipn a t) i Some) eqn:E1;
    destruct (re_match (pat_flags p) (source p) (skipn a t) i
                (fun j => Some (a + j))) eqn:E2; try reflexivity; exfalso.
  - revert E2. apply (re_match_mono (skipn a t) (pat_flags p) (pat_flags p)
                        (source p) (flags_le_refl _) i Some);
      [discriminate | congruence].
  - revert E1. apply (re_match_mono (skipn a t) (pat_flags p) (pat_flags p)
                        (source p) (flags_le_refl _) i
                        (fun j => Some (a + j)));
      [discriminate | congruence].
Qed.

(** At the start of the remainder the character before it is not seen:
    "IMP" does not lie between word boundaries at offset 1 of "xIMP y",
    and does at offset 0 of the remainder. *)
Example remainder_start_boundary :
  marker_matches_at (marker "IMP") true IGNORECASE (str "xIMP y") 1 = false
  /\ marker_matches_at (marker "IMP") true IGNORECASE
                       (slice_from (str "xIMP y") 1) 0 = true
  /\ _find_end_position_greedy (str "xIMP y") (Some [marker "IMP"]) 1 true
                               IGNORECASE = Ok 1%Z.
Proof. vm_compute. repeat split; reflexivity. Qed.

(** * The fuel of [finditer] *)

Lemma scan_bounds fl r t :
  forall n i adv s e,
    scan fl r t n i adv = Some (s, e) ->
    i <= s < i + n /\ s <= e <= Nat.max s (length t)
    /\ (adv = true -> s = i -> i < e).
Proof.
  induction n as [|n IH]; intros i adv s e; simpl; [discriminate|].
  destruct (re_match fl r t i
              (fun j => if adv && (j =? i) then None else Some j))
    as [e0|] eqn:E.
  - intros H. injection H as <- <-.
    apply re_match_bounds in E as (j & Hj & Hk).
    destruct (adv && (j =? i)) eqn:A; [discriminate|].
    injection Hk as <-. split; [lia|]. split; [lia|].
    intros -> _. simpl in A. apply Nat.eqb_neq in A. lia.
  - intros H. apply IH in H as (H1 & H2 & _).
    split; [lia|]. split; [lia|]. intros _ Hs. lia.
Qed.

(** Once the fuel covers twice the offsets left, more fuel finds no more
    matches: [finditer] never stops for lack of fuel. *)
Lemma finditer_loop_fuel fl r t :
  forall f f' i (adv : bool),
    2 * (S (length t) - i) <= f + (if adv then 1 else 0) ->
    2 * (S (length t) - i) <= f' + (if adv then 1 else 0) ->
    finditer_loop fl r t f i adv = finditer_loop fl r t f' i adv.
Proof.
  induction f as [|f IH]; intros f' i adv Hf Hf'.
  - assert (Hi : S (length t) - i = 0) by (destruct adv; lia).
    destruct f' as [|f']; [reflexivity|].
    cbn [finditer_loop]. now rewrite Hi.
  - destruct f' as [|f'].
    + assert (Hi : S (length t) - i = 0) by (destruct adv; lia).
      cbn [finditer_loop]. now rewrite Hi.
    + cbn [finditer_loop].
      destruct (scan fl r t (S (length t) - i) i adv) as [[s e]|] eqn:E;
        [|reflexivity].
      apply scan_bounds in E as (H1 & H2 & H3).
      f_equal. apply IH.
      * destruct (s =? e) eqn:Q.
        -- apply Nat.eqb_eq in Q. subst e. destruct adv; [|lia].
           destruct (Nat.eq_dec s i) as [->|N];
             [specialize (H3 eq_refl eq_refl); lia | lia].
        -- apply Nat.eqb_neq in Q. destruct adv; lia.
      * destruct (s =? e) eqn:Q.
        -- apply Nat.eqb_eq in Q. subst e. destruct adv; [|lia].
           destruct (Nat.eq_dec s i) as [->|N];
             [specialize (H3 eq_refl eq_refl); lia | lia].
        -- apply Nat.eqb_neq in Q. destruct adv; lia.
Qed.

Lemma finditer_fuel_enough fl r t f :
  2 * length t + 2 <= f ->
  finditer_loop fl r t f 0 false = finditer fl r t.
Proof.
  intros H. unfold finditer. apply finditer_loop_fuel; simpl; lia.
Qed.

(** * Patterns compiled from marker lists *)

Lemma is_some_true (o : option nat) :
  match o with Some _ => true | None => false end = true <-> o <> None.
Proof. destruct o; split; congruence. Qed.

Lemma is_some_false (o : option nat) :
  match o with Some _ => true | None => false end = false <-> o = None.
Proof. destruct o; split; congruence. Qed.

(** The alternation matches where one of its markers, compiled alone,
    matches. *)
Lemma pattern_keys_matches keys wb fl p t i :
  _pattern_keys keys wb fl = Ok p ->
  (matches_at p t i = true <->
   exists key, In key keys /\ marker_matches_at key wb fl t i = true).
Proof.
  destruct keys as [|key keys]; [discriminate|].
  unfold marker_matches_at, matches_at, _pattern_keys.
  destruct wb; intros H; injection H as <-; cbn [source pat_flags join_alt];
    rewrite is_some_true.
  - unfold anchored. cbn [re_match].
    destruct (is_boundary t i).
    + rewrite join_alt_match. split.
      * intros (r & Hin & Hr). exists r. split; [exact Hin|].
        now apply is_some_true.
      * intros (r & Hin & Hr). exists r. split; [exact Hin|].
        now apply is_some_true in Hr.
    + split; [congruence|]. intros (r & _ & Hr). discriminate.
  - rewrite join_alt_match. split.
    + intros (r & Hin & Hr). exists r. split; [exact Hin|].
      now apply is_some_true.
    + intros (r & Hin & Hr). exists r. split; [exact Hin|].
      now apply is_some_true in Hr.
Qed.

Lemma pattern_search_none p t :
  pattern_search p t = None <->
  (forall i, i <= length t -> matches_at p t i = false).
Proof.
  unfold pattern_search, search, matches_at. rewrite scan_none. split.
  - intros H i Hi. apply is_some_false. apply H. lia.
  - intros H i Hi. apply is_some_false. apply H. lia.
Qed.

Lemma pattern_search_some p t s e :
  pattern_search p t = Some (s, e) ->
  s <= length t /\ matches_at p t s = true
  /\ (forall j, j < s -> matches_at p t j = false).
Proof.
  unfold pattern_search, search, matches_at. rewrite scan_some.
  intros (Hs & He & Hmin). split; [lia|]. split.
  - now rewrite He.
  - intros j Hj. apply is_some_false. apply Hmin. lia.
Qed.

(** The offset [search] reports is the earliest match of any marker. *)
Lemma pattern_keys_search_some keys wb fl p t s e :
  _pattern_keys keys wb fl = Ok p ->
  pattern_search p t = Some (s, e) ->
  earliest_match keys wb fl t s.
Proof.
  intros Hp Hs. apply pattern_search_some in Hs as (Hle & Hm & Hmin).
  split; [exact Hle|]. split.
  - now apply (pattern_keys_matches _ _ _ _ t s Hp).
  - intros j key Hj Hin.
    destruct (marker_matches_at key wb fl t j) eqn:E; [|reflexivity].
    rewrite <- (Hmin j Hj). symmetry.
    apply (pattern_keys_matches _ _ _ _ t j Hp). eauto.
Qed.

Lemma pattern_keys_search_none keys wb fl p t :
  _pattern_keys keys wb fl = Ok p ->
  (pattern_search p t = None <->
   forall key, In key keys -> marker_absent key wb fl t).
Proof.
  intros Hp. rewrite pattern_search_none. split.
  - intros H key Hin i Hi.
    destruct (marker_matches_at key wb fl t i) eqn:E; [|reflexivity].
    rewrite <- (H i Hi). symmetry.
    apply (pattern_keys_matches _ _ _ _ t i Hp). eauto.
  - intros H i Hi.
    destruct (matches_at p t i) eqn:E; [|reflexivity].
    apply (pattern_keys_matches _ _ _ _ t i Hp) in E as (key & Hin & Hk).
    rewrite (H key Hin i Hi) in Hk. discriminate.
Qed.

Lemma earliest_match_unique keys wb fl t i j :
  earliest_match keys wb fl t i -> earliest_match keys wb fl t j -> i = j.
Proof.
  intros (_ & (k1 & Hin1 & Hk1) & Hmin1) (_ & (k2 & Hin2 & Hk2) & Hmin2).
  destruct (Nat.lt_trichotomy i j) as [H|[H|H]]; [|exact H|].
  - rewrite (Hmin2 i k1 H Hin1) in Hk1. discriminate.
  - rewrite (Hmin1 j k2 H Hin2) in Hk2. discriminate.
Qed.

Lemma earliest_match_not_absent keys wb fl t i :
  earliest_match keys wb fl t i ->
  ~ (forall key, In key keys -> marker_absent key wb fl t).
Proof.
  intros (Hle & (k & Hin & Hk) & _) H.
  rewrite (H k Hin i Hle) in Hk. discriminate.
Qed.


(** * Slices *)

Lemma norm_index_in_range n p :
  (0 <= p <= Z.of_nat n)%Z -> norm_index n p = Z.to_nat p.
Proof.
  intros H. unfold norm_index.
  destruct (p <? 0)%Z eqn:E; [apply Z.ltb_lt in E; lia|].
  apply Nat.min_l. lia.
Qed.

Lemma norm_index_le n p : norm_index n p <= n.
Proof.
  unfold norm_index. destruct (p <? 0)%Z eqn:E.
  - apply Z.ltb_lt in E. lia.
  - apply Nat.le_min_r.
Qed.

Lemma slice_from_in_range t p :
  (0 <= p <= len t)%Z -> slice_from t p = skipn (Z.to_nat p) t.
Proof.
  intros H. unfold slice_from. now rewrite norm_index_in_range.
Qed.

Lemma slice_from_length t p :
  (0 <= p <= len t)%Z ->
  Z.of_nat (length (slice_from t p)) = (len t - p)%Z.
Proof.
  intros H. rewrite slice_from_in_range by exact H.
  rewrite length_skipn. unfold len in *. lia.
Qed.

(** * The end finders *)

Lemma greedy_end_cases t key keys p wb fl :
  greedy_end_spec t (key :: keys) p wb fl.
Proof.
  unfold greedy_end_spec, _find_end_position_greedy.
  destruct (_pattern_keys (key :: keys) wb fl) as [pt|e] eqn:Hp.
  2:{ simpl in Hp. destruct wb; discriminate. }
  destruct (pattern_search pt (slice_from t p)) as [[s e]|] eqn:Hs.
  - left. exists s. split; [|reflexivity].
    exact (pattern_keys_search_some _ _ _ _ _ _ _ Hp Hs).
  - right. split; [|reflexivity].
    now apply (pattern_keys_search_none _ _ _ _ _ Hp).
Qed.





Lemma marker_search_some key (wb : bool) fl t s e :
  search fl (if wb then anchored key else key) t = Some (s, e) ->
  earliest_match [key] wb fl t s.
Proof.
  intros H.
  apply (pattern_keys_search_some [key] wb fl
           (Compiled (if wb then anchored key else key) fl) t s e).
  - simpl. now destruct wb.
  - exact H.
Qed.

Lemma marker_search_none key (wb : bool) fl t :
  search fl (if wb then anchored key else key) t = None <->
  marker_absent key wb fl t.
Proof.
  assert (Hp : _pattern_keys [key] wb fl
               = Ok (Compiled (if wb then anchored key else key) fl))
    by (simpl; now destruct wb).
  pose proof (pattern_keys_search_none _ _ _ _ t Hp) as H.
  unfold pattern_search in H. cbn [source pat_flags] in H.
  rewrite H. split.
  - intros A. apply A. now left.
  - intros A k [<-|[]]. exact A.
Qed.

Lemma sequential_loop_unfold t rest key keys p (wb : bool) fl :
  sequential_loop t rest (key :: keys) p wb fl
  = match search fl (if wb then anchored key else key) rest with
    | Some (s, _) => Ok (p + Z.of_nat s)%Z
    | None => sequential_loop t rest keys p wb fl
    end.
Proof. simpl. now destruct wb. Qed.

Lemma sequential_loop_total t rest keys p wb fl :
  exists e, sequential_loop t rest keys p wb fl = Ok e.
Proof.
  induction keys as [|key keys IH].
  - simpl. eauto.
  - rewrite sequential_loop_unfold.
    destruct (search fl _ rest) as [[s e]|]; eauto.
Qed.

Lemma sequential_loop_absent t rest keys p wb fl :
  (forall key, In key keys -> marker_absent key wb fl rest) ->
  sequential_loop t rest keys p wb fl = Ok (len t).
Proof.
  induction keys as [|key keys IH]; intros H; [reflexivity|].
  rewrite sequential_loop_unfold.
  assert (E : search fl (if wb then anchored key else key) rest = None)
    by (apply marker_search_none, H; now left).
  rewrite E. apply IH. intros k Hk. apply H. now right.
Qed.

Lemma sequential_loop_first t rest pre key post p wb fl i :
  (forall k, In k pre -> marker_absent k wb fl rest) ->
  earliest_match [key] wb fl rest i ->
  sequential_loop t rest (pre ++ key :: post) p wb fl
  = Ok (p + Z.of_nat i)%Z.
Proof.
  induction pre as [|k pre IH]; intros Hpre Hi.
  - cbn [app]. rewrite sequential_loop_unfold.
    destruct (search fl (if wb then anchored key else key) rest)
      as [[s e]|] eqn:E.
    + apply marker_search_some in E.
      now rewrite (earliest_match_unique _ _ _ _ _ _ E Hi).
    + apply marker_search_none in E.
      apply earliest_match_not_absent in Hi. exfalso. apply Hi.
      intros k [<-|[]]. exact E.
  - cbn [app]. rewrite sequential_loop_unfold.
    assert (E : search fl (if wb then anchored k else k) rest = None)
      by (apply marker_search_none, Hpre; now left).
    rewrite E. apply IH; [|exact Hi].
    intros k' Hk'. apply Hpre. now right.
Qed.

Lemma slice_from_nat t a :
  a <= length t -> slice_from t (Z.of_nat a) = skipn a t.
Proof.
  intros H. rewrite slice_from_in_range by (unfold len; lia).
  now rewrite Nat2Z.id.
Qed.

Lemma search_offset_bound fl r t a s e :
  a <= length t -> search fl r (skipn a t) = Some (s, e) ->
  a + s <= length t.
Proof.
  intros Ha H. apply search_bounds in H. rewrite length_skipn in H. lia.
Qed.

Lemma sequential_loop_bounds t a keys wb fl r :
  a <= length t ->
  sequential_loop t (skipn a t) keys (Z.of_nat a) wb fl = Ok r ->
  exists c, r = Z.of_nat c /\ a <= c <= length t.
Proof.
  intros Ha. induction keys as [|key keys IH].
  - simpl. intros H. injection H as <-. exists (length t).
    split; [reflexivity | lia].
  - rewrite sequential_loop_unfold.
    destruct (search fl _ (skipn a t)) as [[s e]|] eqn:E; [|exact IH].
    intros H. injection H as <-. exists (a + s).
    split; [lia|]. pose proof (search_offset_bound _ _ _ _ _ _ Ha E). lia.
Qed.

(** C3: [_find_end_position_sequential] tries the end markers in list
    order: the first marker of the list that matches anywhere in the
    remainder [text[fromPos:]] decides, by the offset of its first match,
    whatever the markers after it would match; when no marker matches, and
    when the list is null, the result is [len(text)]; the finder always
    returns.  For [0 <= fromPos <= len(text)] the result is an offset of
    the text from [fromPos] on, and strictly after [fromPos] a marker
    matches in the remainder where it matches in the text.  On the report
    with its sections out of order, greedy ends the history section at
    IMPRESSION (offset 11) and sequential at FINDINGS (offset 25). *)
Theorem sequential_end_first_listed_match t keys p wb fl :
  let rest := slice_from t p in
  let r := _find_end_position_sequential t (Some keys) p wb fl in
  (forall pre key post i,
      keys = pre ++ key :: post ->
      (forall k, In k pre -> marker_absent k wb fl rest) ->
      earliest_match [key] wb fl rest i ->
      r = Ok (p + Z.of_nat i)%Z)
  /\ ((forall key, In key keys -> marker_absent key wb fl rest) ->
      r = Ok (len t))
  /\ (exists e, r = Ok e)
  /\ _find_end_position_sequential t None p wb fl = Ok (len t)
  /\ ((0 <= p <= len t)%Z ->
      (forall e, r = Ok e -> (p <= e <= len t)%Z)
      /\ (forall key i, 1 <= i ->
            marker_matches_at key wb fl rest i
            = marker_matches_at key wb fl t (Z.to_nat p + i)))
  /\ (let ends := Some [marker "FINDINGS"; marker "IMPRESSION"] in
      let starts := Some [marker "HISTORY"] in
      _find_end_position_greedy report_reversed ends 0 wb IGNORECASE
      = Ok 11%Z
      /\ _find_end_position_sequential report_reversed ends 0 wb IGNORECASE
         = Ok 25%Z
      /\ extract (extractor starts ends true wb "greedy") report_reversed
         = ([], Ok (str "HISTORY: a"))
      /\ extract (extractor starts ends true wb "sequential") report_reversed
         = ([], Ok (str "HISTORY: a" ++ [newline] ++ str "IMPRESSION: b"))).
Proof.
  cbv zeta. split; [|split; [|split; [|split; [|split]]]].
  - intros pre key post i -> Hpre Hi. now apply sequential_loop_first.
  - apply sequential_loop_absent.
  - apply sequential_loop_total.
  - reflexivity.
  - intros Hp. split.
    + intros e He. unfold _find_end_position_sequential in He.
      assert (Ha : Z.to_nat p <= length t) by (unfold len in Hp; lia).
      replace p with (Z.of_nat (Z.to_nat p)) in He by lia.
      rewrite slice_from_nat in He by exact Ha.
      apply sequential_loop_bounds in He as (c & -> & Hc); [|exact Ha].
      unfold len. lia.
    + intros key i Hi. rewrite slice_from_in_range by exact Hp.
      now apply marker_matches_at_skipn.
  - destruct wb; vm_compute; repeat split; reflexivity.
Qed.

Lemma sequential_end_first_listed_match_witness :
  _find_end_position_sequential report_reversed
    (Some [marker "TECHNIQUE"; marker "FINDINGS"; marker "IMPRESSION"])
    11 true IGNORECASE
  = Ok (11 + Z.of_nat 14)%Z.
Proof.
  refine (proj1 (sequential_end_first_listed_match report_reversed
            [marker "TECHNIQUE"; marker "FINDINGS"; marker "IMPRESSION"]
            11%Z true IGNORECASE)
            [marker "TECHNIQUE"] (marker "FINDINGS") [marker "IMPRESSION"]
            14 eq_refl _ _).
  - intros k [<-|[]] i Hi.
    do 27 (destruct i as [|i]; [vm_compute; reflexivity|]).
    vm_compute in Hi. lia.
  - split; [vm_compute; lia|]. split.
    + exists (marker "FINDINGS"). split; [now left | vm_compute; reflexivity].
    + intros j key Hj [<-|[]].
      do 14 (destruct j as [|j]; [vm_compute; reflexivity|]). lia.
Defined.

(** * [extract_all] *)

Lemma find_end_total self t p wb fl :
  end_keys self <> Some [] -> exists e, find_end self t p wb fl = Ok e.
Proof.
  intros Hne. unfold find_end.
  destruct (String.eqb (match_strategy self) "greedy").
  - destruct (end_keys self) as [[|k ks]|] eqn:E.
    + congruence.
    + destruct (greedy_end_cases t k ks p wb fl) as [(i & _ & H)|(_ & H)];
        rewrite H; eauto.
    + simpl. eauto.
  - destruct (end_keys self) as [keys|].
    + apply sequential_loop_total.
    + simpl. eauto.
Qed.

Lemma truthy_nonempty (x : text) : truthy x = true -> x <> [].
Proof. destruct x; [discriminate | congruence]. Qed.

Lemma extract_all_loop_spec self t :
  forall starts acc secs,
    extract_all_loop self t starts acc = Ok secs <->
    exists ends,
      Forall2 (end_resolved self t) starts ends
      /\ secs = acc ++ filter truthy
                         (map (candidate self t) (combine starts ends)).
Proof.
  induction starts as [|[s e] starts IH]; intros acc secs.
  - simpl. split.
    + intros H. injection H as <-. exists []. split; [constructor|].
      now rewrite app_nil_r.
    + intros (ends & HF & ->). inversion HF; subst. simpl.
      now rewrite app_nil_r.
  - cbn [extract_all_loop]. split.
    + intros H.
      destruct (find_end self t s (word_boundary self) (flags self))
        as [end_idx|x] eqn:E; [|discriminate].
      apply IH in H as (ends & HF & ->).
      exists (end_idx :: ends). split; [constructor; assumption|].
      cbn [combine map filter candidate fst snd].
      destruct (truthy (strip (slice t _ end_idx))).
      * now rewrite <- app_assoc.
      * reflexivity.
    + intros (ends & HF & ->). inversion HF as [|sp end_idx ss es H1 H2];
        subst. unfold end_resolved in H1. cbn [fst] in H1. rewrite H1.
      apply IH. exists es. split; [exact H2|].
      cbn [combine map filter candidate fst snd].
      destruct (truthy (strip (slice t _ end_idx))).
      * now rewrite <- app_assoc.
      * reflexivity.
Qed.

Lemma extract_all_loop_total self t :
  end_keys self <> Some [] ->
  forall starts acc, exists secs, extract_all_loop self t starts acc = Ok secs.
Proof.
  intros Hne. induction starts as [|[s e] starts IH]; intros acc.
  - simpl. eauto.
  - cbn [extract_all_loop].
    destruct (find_end_total self t s (word_boundary self) (flags self) Hne)
      as (end_idx & ->).
    apply IH.
Qed.

Lemma find_start_position_all_total t keys wb fl :
  keys <> Some [] -> exists l, _find_start_position_all t keys wb fl = Ok l.
Proof.
  intros Hne. unfold _find_start_position_all.
  destruct keys as [[|k ks]|].
  - congruence.
  - destruct (_pattern_keys (k :: ks) wb fl) as [p|x] eqn:Hp.
    + destruct (negb (truthy (pattern_finditer p t))); eauto.
    + simpl in Hp. destruct wb; discriminate.
  - eauto.
Qed.

Lemma extract_all_total self t :
  start_keys self <> Some [] -> end_keys self <> Some [] ->
  exists secs, extract_all self t = Ok secs.
Proof.
  intros Hs He. unfold extract_all.
  destruct (find_start_position_all_total t (start_keys self)
              (word_boundary self) (flags self) Hs) as (starts & ->).
  destruct (negb (truthy starts)); [eauto|].
  now apply extract_all_loop_total.
Qed.

(** C4: [extract_all] returns exactly the candidates of the start spans
    that [_find_start_position_all] reports, in their order and one per
    span: each span's end offset is resolved from that span's own start,
    the candidate is the stripped slice [extract] would cut, and the
    candidates that strip to the empty string are left out, so that every
    string returned is non-empty.  With marker lists that are null or
    non-empty it always returns. *)
Theorem extract_all_candidates self t :
  (forall secs,
      extract_all self t = Ok secs <->
      exists starts ends,
        _find_start_position_all t (start_keys self) (word_boundary self)
                                 (flags self) = Ok starts
        /\ Forall2 (end_resolved self t) starts ends
        /\ secs = filter truthy
                         (map (candidate self t) (combine starts ends)))
  /\ (forall secs, extract_all self t = Ok secs ->
                   Forall (fun s => s <> []) secs)
  /\ (start_keys self <> Some [] -> end_keys self <> Some [] ->
      exists secs, extract_all self t = Ok secs).
Proof.
  assert (Main : forall secs,
      extract_all self t = Ok secs <->
      exists starts ends,
        _find_start_position_all t (start_keys self) (word_boundary self)
                                 (flags self) = Ok starts
        /\ Forall2 (end_resolved self t) starts ends
        /\ secs = filter truthy
                         (map (candidate self t) (combine starts ends))).
  { intros secs. unfold extract_all.
    destruct (_find_start_position_all t (start_keys self)
                (word_boundary self) (flags self)) as [starts|x].
    - destruct starts as [|sp starts].
      + simpl. split.
        * intros H. injection H as <-. exists [], []. repeat split.
          constructor.
        * intros (starts & ends & H & HF & ->). injection H as <-.
          reflexivity.
      + cbn [truthy negb]. rewrite extract_all_loop_spec. split.
        * intros (ends & HF & ->). exists (sp :: starts), ends. auto.
        * intros (starts' & ends & H & HF & ->). injection H as <-.
          exists ends. auto.
    - split; [discriminate|]. intros (starts & ends & H & _). discriminate. }
  split; [exact Main|]. split.
  - intros secs H. apply Main in H as (starts & ends & _ & _ & ->).
    apply Forall_forall. intros x Hx. apply filter_In in Hx as [_ Hx].
    now apply truthy_nonempty.
  - apply extract_all_total.
Qed.

Lemma extract_all_candidates_witness :
  exists secs,
    extract_all (extractor (Some [marker "Human"]) (Some [marker "AI"])
                           false false "greedy") conversation = Ok secs.
Proof.
  apply (extract_all_candidates
           (extractor (Some [marker "Human"]) (Some [marker "AI"])
                      false false "greedy") conversation);
    discriminate.
Defined.

(** The conversation of the specification: the two sections that follow
    the marker "Human". *)
Example extract_all_conversation :
  extract_all (extractor (Some [marker "Human"]) (Some [marker "AI"])
                         false false "greedy") conversation
  = Ok [str ": Hi"; str ": Bye"].
Proof. vm_compute. reflexivity. Qed.

(** Spans that overlap are all reported: the first section contains the
    second. *)
Example extract_all_overlapping :
  extract_all (extractor (Some [marker "Human"]) (Some [marker "AI"])
                         true false "greedy")
              (str "Human: a Human: b AI: c")
  = Ok [str "Human: a Human: b"; str "Human: b"].
Proof. vm_compute. reflexivity. Qed.

(** * Markers that do not match *)

(** A marker that matches still matches under more liberal flags, and
    without the word-boundary anchors. *)
Lemma marker_matches_mono key (wb wb' : bool) fl fl' t i :
  flags_le fl fl' -> (wb' = true -> wb = true) ->
  marker_matches_at key wb fl t i = true ->
  marker_matches_at key wb' fl' t i = true.
Proof.
  intros Hfl Hwb. unfold marker_matches_at, matches_at.
  destruct wb, wb'; cbn [_pattern_keys join_alt source pat_flags];
    rewrite !is_some_true.
  - apply re_match_mono; [exact Hfl | auto].
  - unfold anchored. cbn [re_match].
    destruct (is_boundary t i); [|congruence].
    apply re_match_mono; [exact Hfl|]. intros j _. discriminate.
  - specialize (Hwb eq_refl). discriminate.
  - apply re_match_mono; [exact Hfl | auto].
Qed.





(** * No start marker matches *)



Lemma find_start_position_log t keys wb fl :
  fst (_find_start_position t (Some keys) wb fl) = warn_duplicates t keys fl.
Proof.
  unfold _find_start_position.
  destruct (_pattern_keys keys wb fl) as [p|x]; [|reflexivity].
  now destruct (pattern_search p t) as [[a b]|].
Qed.





(** * Configuration errors *)

Lemma find_start_position_total t keys wb fl :
  keys <> Some [] ->
  exists log sp, _find_start_position t keys wb fl = (log, Ok sp).
Proof.
  intros Hne. destruct keys as [[|k ks]|]; simpl.
  - congruence.
  - destruct wb; destruct (pattern_search _ t) as [[s e]|]; eauto.
  - eauto.
Qed.

Lemma extract_total self t :
  start_keys self <> Some [] -> end_keys self <> Some [] ->
  exists log sec, extract self t = (log, Ok sec).
Proof.
  intros Hs He. unfold extract.
  destruct (find_start_position_total t (start_keys self) true IGNORECASE Hs)
    as (log & [s e] & ->).
  destruct (s =? -1)%Z; [eauto|].
  destruct (find_end_total self t s true IGNORECASE He) as (end_idx & ->).
  eauto.
Qed.

(** C9 (amended): an unknown match strategy makes the constructor raise,
    a known one makes it return the configured extractor; compiling a
    pattern from an empty list raises; an extractor the constructor
    returned, whose marker lists are each null or non-empty, raises
    nothing in [extract] and [extract_all]. *)
Theorem configuration_errors :
  (forall s e i w fl st,
      st <> "greedy"%string -> st <> "sequential"%string ->
      __init__ s e i w fl st = Raise (ValueError ("Invalid value: " ++ st)))
  /\ (forall s e i w fl st,
         st = "greedy"%string \/ st = "sequential"%string ->
         exists self, __init__ s e i w fl st = Ok self
                      /\ start_keys self = s /\ end_keys self = e
                      /\ match_strategy self = st)
  /\ (forall wb fl,
         _pattern_keys [] wb fl
         = Raise (ValueError "keys must have at least one element"))
  /\ (forall s e i w fl st self t,
         __init__ s e i w fl st = Ok self ->
         s <> Some [] -> e <> Some [] ->
         (exists log sec, extract self t = (log, Ok sec))
         /\ (exists secs, extract_all self t = Ok secs)).
Proof.
  split; [|split; [|split]].
  - intros s e i w fl st H1 H2. unfold __init__. cbn [existsb].
    apply String.eqb_neq in H1, H2. now rewrite H1, H2.
  - intros s e i w fl st H. unfold __init__. cbn [existsb].
    destruct H as [-> | ->]; simpl; eexists; repeat split.
  - reflexivity.
  - intros s e i w fl st self t H Hs He. unfold __init__ in H.
    destruct (existsb _ _); [|discriminate]. injection H as <-. split.
    + now apply extract_total.
    + now apply extract_all_total.
Qed.

Lemma configuration_errors_witness :
  __init__ (Some [marker "HISTORY"]) None true false IGNORECASE "eager"
  = Raise (ValueError "Invalid value: eager").
Proof.
  apply (proj1 configuration_errors
           (Some [marker "HISTORY"]) None true false IGNORECASE
           "eager"%string); discriminate.
Defined.

(** C9 as stated fails: the constructor accepts an empty marker list, and
    the error of compiling it is raised by [extract] and [extract_all]. *)
Lemma empty_list_error_at_extraction :
  exists self,
    __init__ (Some [marker "HISTORY"]) (Some []) true false IGNORECASE
             "greedy" = Ok self
    /\ snd (extract self (str "history: x"))
       = Raise (ValueError "keys must have at least one element")
    /\ extract_all self (str "history: x")
       = Raise (ValueError "keys must have at least one element").
Proof.
  eexists. split; [reflexivity|]. split; reflexivity.
Qed.

(** * Null marker lists *)

Lemma slice_from_zero t e :
  slice t 0 e = firstn (norm_index (length t) e) t.
Proof.
  unfold slice. change (norm_index (length t) 0) with (Nat.min 0 (length t)).
  rewrite Nat.min_0_l, Nat.sub_0_r. reflexivity.
Qed.

Lemma slice_to_len t s : slice t s (len t) = slice_from t s.
Proof.
  unfold slice, slice_from, len.
  assert (H : norm_index (length t) (Z.of_nat (length t)) = length t).
  { rewrite norm_index_in_range by lia. apply Nat2Z.id. }
  rewrite H. apply firstn_all2. rewrite length_skipn. lia.
Qed.

Lemma find_end_null self t p wb fl :
  end_keys self = None -> find_end self t p wb fl = Ok (len t).
Proof.
  intros H. unfold find_end. rewrite H.
  now destruct (String.eqb (match_strategy self) "greedy").
Qed.

(** C6: with a null start-marker list the start span is [(0, 0)] and the
    section is the stripped prefix of the text up to the end offset; with
    a null end-marker list the section is the stripped remainder of the
    text from the section start; with both lists null it is the stripped
    text. *)
Theorem extract_null_markers self t :
  (forall wb fl, _find_start_position t None wb fl = ([], Ok (0, 0)%Z))
  /\ (start_keys self = None ->
      match find_end self t 0 true IGNORECASE with
      | Ok e =>
          extract self t
          = ([], Ok (strip (firstn (norm_index (length t) e) t)))
      | Raise x => extract self t = ([], Raise x)
      end)
  /\ (end_keys self = None ->
      forall log s e,
        _find_start_position t (start_keys self) true IGNORECASE
        = (log, Ok (s, e)) ->
        s <> (-1)%Z ->
        extract self t
        = (log, Ok (strip (slice_from t (if include_start_keys self
                                         then s else e)))))
  /\ (start_keys self = None -> end_keys self = None ->
      extract self t = ([], Ok (strip t))).
Proof.
  split; [reflexivity|]. split; [|split].
  - intros Hs. unfold extract. rewrite Hs. cbn [_find_start_position].
    change (0 =? -1)%Z with false. cbv iota.
    destruct (find_end self t 0 true IGNORECASE) as [e|x]; [|reflexivity].
    destruct (include_start_keys self); now rewrite slice_from_zero.
  - intros He log s e Hf Hs. unfold extract. rewrite Hf.
    apply Z.eqb_neq in Hs. rewrite Hs.
    rewrite (find_end_null self t s true IGNORECASE He).
    now rewrite slice_to_len.
  - intros Hs He. unfold extract. rewrite Hs. cbn [_find_start_position].
    change (0 =? -1)%Z with false. cbv iota.
    rewrite (find_end_null self t 0 true IGNORECASE He).
    destruct (include_start_keys self); rewrite slice_to_len;
      unfold slice_from;
      change (norm_index (length t) 0) with (Nat.min 0 (length t));
      now rewrite Nat.min_0_l.
Qed.

Lemma extract_null_markers_witness :
  extract (extractor None None false true "greedy")
          (str "  MRI OF THE BRAIN ")
  = ([], Ok (strip (str "  MRI OF THE BRAIN "))).
Proof.
  apply (extract_null_markers (extractor None None false true "greedy")
                              (str "  MRI OF THE BRAIN "));
    reflexivity.
Defined.

(** * The word-boundary option *)

(** C1: [extract] does not read the extractor's [word_boundary] option; it
    always anchors its matches.  The extractor of the documentation's
    example, configured with [word_boundary=False], does not end the
    section at "IMP" inside "IMPRESSION" in [extract], though it does in
    [extract_all]; and it does not find "history" inside
    "clinicalhistory". *)
Theorem extract_ignores_word_boundary :
  (forall self b t, extract (set_word_boundary self b) t = extract self t)
  /\ (let self := extractor (Some [marker "FINDING"]) (Some [marker "IMP"])
                            true false "greedy" in
      extract self finding_impression
      = ([], Ok (str "FINDING Normal" ++ [newline]
                     ++ str "IMPRESSION Abnormal"))
      /\ extract_all self finding_impression = Ok [str "FINDING Normal"])
  /\ (let self := extractor (Some [marker "history"]) None true false
                            "greedy" in
      extract self (str "clinicalhistory: x") = ([], Ok [])
      /\ extract_all self (str "clinicalhistory: x")
         = Ok [str "history: x"]).
Proof.
  split; [|split].
  - intros self b t. reflexivity.
  - vm_compute. split; reflexivity.
  - vm_compute. split; reflexivity.
Qed.

(** * The duplicate-marker diagnostic *)


Lemma findall_length fl r t :
  length (findall fl r t) = length (finditer fl r t).
Proof. unfold findall. apply length_map. Qed.




(** * Stripping *)

Lemma lstrip_app x y :
  lstrip (x ++ y) = if forallb isspace x then lstrip y else lstrip x ++ y.
Proof.
  induction x as [|a x IH]; [reflexivity|].
  simpl. destruct (isspace a); [exact IH | reflexivity].
Qed.

Lemma lstrip_all_space x : forallb isspace x = true -> lstrip x = [].
Proof.
  induction x as [|a x IH]; [reflexivity|].
  simpl. destruct (isspace a); [exact IH | discriminate].
Qed.

Lemma lstrip_length x : length (lstrip x) <= length x.
Proof.
  induction x as [|a x IH]; [apply Nat.le_refl|].
  simpl. destruct (isspace a); simpl; lia.
Qed.

Lemma lstrip_no_space x : starts_with_space x = false -> lstrip x = x.
Proof.
  destruct x as [|a x]; [reflexivity|]. simpl. now intros ->.
Qed.

Lemma lstrip_starts x : starts_with_space (lstrip x) = false.
Proof.
  induction x as [|a x IH]; [reflexivity|].
  simpl. destruct (isspace a) eqn:E; [exact IH | exact E].
Qed.

Lemma forallb_rev (p : ascii -> bool) x : forallb p (rev x) = forallb p x.
Proof.
  induction x as [|a x IH]; [reflexivity|].
  simpl. rewrite forallb_app, IH. simpl. rewrite andb_true_r.
  apply andb_comm.
Qed.

Lemma rstrip_app x y :
  rstrip (x ++ y) = if forallb isspace y then rstrip x else x ++ rstrip y.
Proof.
  unfold rstrip. rewrite rev_app_distr, lstrip_app, forallb_rev.
  destruct (forallb isspace y); [reflexivity|].
  now rewrite rev_app_distr, rev_involutive.
Qed.

Lemma rstrip_all_space x : forallb isspace x = true -> rstrip x = [].
Proof.
  intros H. unfold rstrip. rewrite lstrip_all_space; [reflexivity|].
  now rewrite forallb_rev.
Qed.

Lemma rstrip_length x : length (rstrip x) <= length x.
Proof.
  unfold rstrip. rewrite length_rev.
  rewrite <- (length_rev x). apply lstrip_length.
Qed.

Lemma rstrip_idem x : rstrip (rstrip x) = rstrip x.
Proof.
  unfold rstrip. rewrite rev_involutive.
  rewrite (lstrip_no_space (lstrip (rev x))); [reflexivity|].
  apply lstrip_starts.
Qed.

Lemma rstrip_cons a x :
  rstrip (a :: x)
  = if forallb isspace x then (if isspace a then [] else [a])
    else a :: rstrip x.
Proof.
  change (a :: x) with ([a] ++ x). rewrite rstrip_app.
  destruct (forallb isspace x); [|reflexivity].
  unfold rstrip. simpl. now destruct (isspace a).
Qed.

Lemma lstrip_rstrip x : lstrip (rstrip x) = rstrip (lstrip x).
Proof.
  induction x as [|a x IH]; [reflexivity|].
  rewrite rstrip_cons. cbn [lstrip].
  destruct (isspace a) eqn:Ea.
  - destruct (forallb isspace x) eqn:Ex.
    + now rewrite (lstrip_all_space x Ex).
    + cbn [lstrip]. rewrite Ea. exact IH.
  - rewrite rstrip_cons.
    destruct (forallb isspace x); cbn [lstrip]; now rewrite Ea.
Qed.

Lemma strip_length x : length (strip x) <= length x.
Proof.
  unfold strip. pose proof (rstrip_length (lstrip x)).
  pose proof (lstrip_length x). lia.
Qed.

Lemma strip_rstrip x : strip (rstrip x) = strip x.
Proof.
  unfold strip. now rewrite lstrip_rstrip, rstrip_idem.
Qed.

Lemma strip_idem x : strip (strip x) = strip x.
Proof.
  unfold strip at 2. rewrite strip_rstrip. unfold strip.
  rewrite (lstrip_no_space (lstrip x)); [reflexivity | apply lstrip_starts].
Qed.

Lemma strip_all_space x : forallb isspace x = true -> strip x = [].
Proof.
  intros H. unfold strip. now rewrite (lstrip_all_space x H).
Qed.

Lemma strip_after_plain_marker m rest :
  starts_with_space m = false ->
  strip (skipn (length m) (strip (m ++ rest))) = strip rest.
Proof.
  intros Hm. destruct m as [|a m].
  - simpl. apply strip_idem.
  - unfold strip at 2.
    rewrite (lstrip_no_space ((a :: m) ++ rest)) by exact Hm.
    rewrite rstrip_app. destruct (forallb isspace rest) eqn:E.
    + rewrite (strip_all_space rest E).
      rewrite skipn_all2 by apply rstrip_length. reflexivity.
    + rewrite skipn_app, Nat.sub_diag, skipn_all. cbn [skipn app].
      apply strip_rstrip.
Qed.

(** Stripping the text that follows a marker: the marker text is cut off
    the trimmed text as it stands there. *)
Lemma strip_after_marker m rest :
  strip (strip_leading m (strip (m ++ rest))) = strip rest.
Proof.
  unfold strip_leading. induction m as [|a m IH].
  - simpl. apply strip_idem.
  - destruct (isspace a) eqn:E.
    + cbn [lstrip app]. rewrite E.
      replace (strip (a :: m ++ rest)) with (strip (m ++ rest)); [exact IH|].
      unfold strip. cbn [lstrip]. now rewrite E.
    + rewrite (lstrip_no_space (a :: m)) by exact E.
      apply strip_after_plain_marker. exact E.
Qed.

(** A trimmed front part of the marker is no longer than the marker
    without its leading whitespace. *)
Lemma strip_front_short x y : length (strip x) <= length (lstrip (x ++ y)).
Proof.
  rewrite lstrip_app. destruct (forallb isspace x) eqn:E.
  - rewrite (strip_all_space x E). apply Nat.le_0_l.
  - rewrite length_app. unfold strip.
    pose proof (rstrip_length (lstrip x)). lia.
Qed.

(** * Offsets of the spans *)

Lemma find_start_position_bounds t keys wb fl log s e :
  _find_start_position t keys wb fl = (log, Ok (s, e)) ->
  s <> (-1)%Z ->
  exists a b, s = Z.of_nat a /\ e = Z.of_nat b /\ a <= b <= length t.
Proof.
  unfold _find_start_position. destruct keys as [keys|].
  - destruct (_pattern_keys keys wb fl) as [p|x]; [|discriminate].
    destruct (pattern_search p t) as [[a b]|] eqn:E.
    + intros H _. injection H as _ <- <-. exists a, b.
      split; [reflexivity|]. split; [reflexivity|].
      exact (search_bounds _ _ _ _ _ E).
    + intros H N. injection H as _ <- _. congruence.
  - intros H _. injection H as _ <- <-. exists 0, 0.
    split; [reflexivity|]. split; [reflexivity | lia].
Qed.

Lemma find_end_bounds self t a wb fl r :
  a <= length t ->
  find_end self t (Z.of_nat a) wb fl = Ok r ->
  exists c, r = Z.of_nat c /\ a <= c <= length t.
Proof.
  intros Ha. unfold find_end.
  assert (L : exists c, len t = Z.of_nat c /\ a <= c <= length t)
    by (exists (length t); split; [reflexivity | lia]).
  destruct (String.eqb (match_strategy self) "greedy").
  - unfold _find_end_position_greedy.
    destruct (end_keys self) as [keys|].
    + destruct (_pattern_keys keys wb fl) as [p|x]; [|discriminate].
      rewrite slice_from_nat by exact Ha. unfold pattern_search.
      destruct (search (pat_flags p) (source p) (skipn a t))
        as [[s e]|] eqn:E.
      * intros H. injection H as <-. exists (a + s). split; [lia|].
        pose proof (search_offset_bound _ _ _ _ _ _ Ha E). lia.
      * intros H. injection H as <-. exact L.
    + intros H. injection H as <-. exact L.
  - unfold _find_end_position_sequential.
    destruct (end_keys self) as [keys|].
    + rewrite slice_from_nat by exact Ha.
      now apply sequential_loop_bounds.
    + intros H. injection H as <-. exact L.
Qed.

Lemma slice_nat t a c :
  a <= length t -> c <= length t ->
  slice t (Z.of_nat a) (Z.of_nat c) = firstn (c - a) (skipn a t).
Proof.
  intros Ha Hc. unfold slice.
  rewrite !norm_index_in_range by lia. now rewrite !Nat2Z.id.
Qed.

Lemma firstn_split (l : text) p q :
  firstn (p + q) l = firstn p l ++ firstn q (skipn p l).
Proof.
  revert l. induction p as [|p IH]; intros l; [reflexivity|].
  destruct l as [|x l]; simpl.
  - now rewrite firstn_nil.
  - now rewrite IH.
Qed.

Lemma slice_split (t : text) a b c :
  a <= b -> b <= c -> c <= length t ->
  firstn (c - a) (skipn a t)
  = firstn (b - a) (skipn a t) ++ firstn (c - b) (skipn b t).
Proof.
  intros Hab Hbc Hc.
  replace (c - a) with ((b - a) + (c - b)) by lia.
  rewrite firstn_split.
  rewrite skipn_skipn. now replace (b - a + a) with b by lia.
Qed.

(** * With and without the start marker *)

(** C5: when a start marker matches, [extract] without the start marker
    returns what [extract] with the start marker returns, with the
    matched marker text cut off its front -- as it stands there, the
    trim having removed the whitespace the match began with -- and the
    rest stripped again; when one of the two raises, so does the other. *)
Theorem extract_without_marker self t m :
  start_match self t = Some m ->
  include_exclude_agree self t m.
Proof.
  unfold start_match. intros Hm.
  destruct (_find_start_position t (start_keys self) true IGNORECASE)
    as [log [[s e]|x]] eqn:F; cbn [snd] in Hm; [|discriminate].
  destruct (s =? -1)%Z eqn:Es; [discriminate|]. injection Hm as <-.
  assert (Ns : s <> (-1)%Z) by now apply Z.eqb_neq.
  destruct (find_start_position_bounds _ _ _ _ _ _ _ F Ns)
    as (a & b & -> & -> & Hab).
  unfold include_exclude_agree, extract.
  cbn [set_include start_keys include_start_keys]. rewrite F, Es.
  change (find_end (set_include self true) t (Z.of_nat a) true IGNORECASE)
    with (find_end self t (Z.of_nat a) true IGNORECASE).
  change (find_end (set_include self false) t (Z.of_nat a) true IGNORECASE)
    with (find_end self t (Z.of_nat a) true IGNORECASE).
  destruct (find_end self t (Z.of_nat a) true IGNORECASE) as [r|x] eqn:E;
    cbn [snd]; [|reflexivity].
  assert (Ha : a <= length t) by lia.
  destruct (find_end_bounds _ _ _ _ _ _ Ha E) as (c & -> & Hc).
  f_equal. rewrite !slice_nat by lia.
  destruct (Nat.le_gt_cases c b) as [Hcb|Hbc].
  - replace (c - b) with 0 by lia. cbn [firstn].
    unfold strip_leading. rewrite skipn_all2; [reflexivity|].
    replace (b - a) with ((c - a) + (b - c)) by lia.
    rewrite firstn_split. apply strip_front_short.
  - rewrite (slice_split t a b c) by lia.
    symmetry. apply strip_after_marker.
Qed.

Lemma extract_without_marker_witness :
  include_exclude_agree
    (extractor (Some [microscopic]) None true false "greedy")
    pathology ([newline] ++ str "**MICROSCOPIC EXAMINATION:** ").
Proof.
  apply (extract_without_marker
           (extractor (Some [microscopic]) None true false "greedy")
           pathology ([newline] ++ str "**MICROSCOPIC EXAMINATION:** ")).
  vm_compute. reflexivity.
Defined.

(** The documentation's marker, which matches the line break before it:
    the section with the marker begins after that line break, and
    cutting the marker off it leaves the section without the marker. *)
Example extract_without_marker_pathology :
  let self := extractor (Some [microscopic]) None true false "greedy" in
  start_match self pathology
  = Some ([newline] ++ str "**MICROSCOPIC EXAMINATION:** ")
  /\ snd (extract (set_include self true) pathology)
     = Ok (str "**MICROSCOPIC EXAMINATION:** normal tissue")
  /\ snd (extract (set_include self false) pathology)
     = Ok (str "normal tissue")
  /\ strip (strip_leading ([newline] ++ str "**MICROSCOPIC EXAMINATION:** ")
                          (str "**MICROSCOPIC EXAMINATION:** normal tissue"))
     = str "normal tissue".
Proof. vm_compute. repeat split; reflexivity. Qed.

(** * The function [extract_section] *)

Lemma strategy_known st :
  existsb (String.eqb st) ["greedy"; "sequential"]%string = true <->
  st = "greedy"%string \/ st = "sequential"%string.
Proof.
  cbn [existsb]. rewrite orb_false_r, orb_true_iff, !String.eqb_eq. tauto.
Qed.

(** X1: with a match strategy the constructor accepts, the function
    [extract_section] returns what [extract] returns on the extractor the
    constructor builds from the same arguments: the same section or
    error, and the same warnings. *)
Theorem extract_section_is_extract t s e i w fl st self :
  __init__ s e i w fl st = Ok self ->
  extract_section t s e i w fl st = extract self t.
Proof.
  unfold __init__. intros H.
  destruct (existsb (String.eqb st) ["greedy"; "sequential"]%string) eqn:E;
    [|discriminate].
  injection H as <-. unfold extract_section, extract, find_end.
  cbn [start_keys end_keys include_start_keys match_strategy].
  rewrite E. reflexivity.
Qed.

Lemma extract_section_is_extract_witness :
  extract_section report_reversed (Some [marker "HISTORY"])
                  (Some [marker "FINDINGS"; marker "IMPRESSION"])
                  true false IGNORECASE "sequential"
  = extract (extractor (Some [marker "HISTORY"])
                       (Some [marker "FINDINGS"; marker "IMPRESSION"])
                       true false "sequential") report_reversed.
Proof.
  apply (extract_section_is_extract report_reversed
           (Some [marker "HISTORY"])
           (Some [marker "FINDINGS"; marker "IMPRESSION"])
           true false IGNORECASE "sequential"%string).
  reflexivity.
Defined.

(** X2: [extract_section] checks the match strategy only after it has
    found a start: with an unknown strategy it raises the configuration
    error when the start markers are null or match, and returns the empty
    string, without error, when no start marker matches. *)
Theorem extract_section_checks_strategy_late t s e i w fl st log sp :
  st <> "greedy"%string -> st <> "sequential"%string ->
  _find_start_position t s true IGNORECASE = (log, Ok sp) ->
  extract_section t s e i w fl st
  = (log, if (fst sp =? -1)%Z then Ok []
          else Raise (ValueError ("Invalid value: " ++ st))).
Proof.
  intros H1 H2 F. unfold extract_section. rewrite F. destruct sp as [a b].
  cbn [fst]. destruct (a =? -1)%Z; [reflexivity|].
  destruct (existsb (String.eqb st) ["greedy"; "sequential"]%string) eqn:E;
    [|reflexivity].
  apply strategy_known in E. tauto.
Qed.

Lemma extract_section_checks_strategy_late_witness :
  extract_section (str "Hist: chest pain") (Some [marker "History"]) None
                  true false IGNORECASE "eager"
  = ([], Ok [])
  /\ extract_section (str "History: chest pain") (Some [marker "History"])
                     None true false IGNORECASE "eager"
     = ([], Raise (ValueError "Invalid value: eager")).
Proof.
  split.
  - apply (extract_section_checks_strategy_late (str "Hist: chest pain")
             (Some [marker "History"]) None true false IGNORECASE
             "eager"%string [] (-1, -1)%Z);
      [discriminate | discriminate | vm_compute; reflexivity].
  - apply (extract_section_checks_strategy_late (str "History: chest pain")
             (Some [marker "History"]) None true false IGNORECASE
             "eager"%string [] (0, 7)%Z);
      [discriminate | discriminate | vm_compute; reflexivity].
Defined.

(** * The first key match *)

(** X3: [_get_first_key_match] returns the text of the span
    [_find_start_position] reports for the same list and options, and
    [None] where that reports the sentinel; on an empty list both raise.
    On a null list it returns [None], where [_find_start_position]
    reports the span [(0, 0)]. *)
Theorem first_key_match_is_start_span t keys wb fl :
  _get_first_key_match t (Some keys) wb fl
  = match snd (_find_start_position t (Some keys) wb fl) with
    | Raise x => Raise x
    | Ok (s, e) => if (s =? -1)%Z then Ok None else Ok (Some (slice t s e))
    end
  /\ _get_first_key_match t None wb fl = Ok None
  /\ snd (_find_start_position t None wb fl) = Ok (0, 0)%Z.
Proof.
  split; [|split; reflexivity].
  unfold _get_first_key_match, _find_start_position.
  destruct (_pattern_keys keys wb fl) as [p|x]; [|reflexivity].
  destruct (pattern_search p t) as [[s e]|] eqn:E; [|reflexivity].
  cbn [snd]. apply search_bounds in E.
  destruct (Z.of_nat s =? -1)%Z eqn:Q; [apply Z.eqb_eq in Q; lia|].
  now rewrite slice_nat by lia.
Qed.

(** The checks of the package's notebook on [_get_first_key_match]. *)
Example first_key_match_checks :
  let t_sk1 := [newline] ++ str "**History:** Rule out pneumonia"
                 ++ [newline]
                 ++ str "ClinicalHistory: Patient with chest pain"
                 ++ [newline] ++ str "Indication: blah blah" ++ [newline]
                 ++ [newline] ++ str "Comparison: None" ++ [newline] in
  let t_sk2 := [newline] ++ str "Hist: Patient with chest pain"
                 ++ [newline] ++ str "Comparison: None" ++ [newline] in
  _get_first_key_match t_sk1 (Some [marker "History"; marker "Indication"])
                       true IGNORECASE = Ok (Some (str "History"))
  /\ _get_first_key_match t_sk2 (Some [marker "History"]) true IGNORECASE
     = Ok None.
Proof. vm_compute. split; reflexivity. Qed.

(** * The early return of [_warn_dup_pattern] *)

Lemma warn_dup_pattern_all t keys wb fl :
  (forall k, In k keys -> 2 <= length (findall fl k t)) ->
  _warn_dup_pattern t keys wb fl
  = map (fun k => MatchWarning k (length (findall fl k t))) keys.
Proof.
  induction keys as [|key keys IH]; intros H; [reflexivity|].
  cbn [_warn_dup_pattern map].
  assert (E : (2 <=? length (findall fl key t)) = true)
    by (apply Nat.leb_le, H; now left).
  rewrite E. now rewrite IH by (intros k Hk; apply H; now right).
Qed.

(** X4: [_warn_dup_pattern] stops at the first key found fewer than two
    times: it reports the keys before it, and none after it, also those
    found twice or more; when every key is found twice or more it reports
    every key.  The keys and counts it reports are the first ones of the
    keys and counts [_find_start_position] warns about, in other
    messages; its [word_boundary] argument has no effect. *)
Theorem warn_dup_pattern_stops_early t keys wb fl :
  (forall pre key post,
      keys = pre ++ key :: post ->
      (forall k, In k pre -> 2 <= length (findall fl k t)) ->
      length (findall fl key t) < 2 ->
      _warn_dup_pattern t keys wb fl
      = map (fun k => MatchWarning k (length (findall fl k t))) pre)
  /\ ((forall k, In k keys -> 2 <= length (findall fl k t)) ->
      _warn_dup_pattern t keys wb fl
      = map (fun k => MatchWarning k (length (findall fl k t))) keys)
  /\ (exists rest,
         map (fun w => (w_key w, w_count w)) (warn_duplicates t keys fl)
         = map (fun w => (m_key w, m_count w))
               (_warn_dup_pattern t keys wb fl) ++ rest)
  /\ _warn_dup_pattern t keys (negb wb) fl = _warn_dup_pattern t keys wb fl.
Proof.
  split; [|split; [|split]].
  - intros pre key post -> Hpre Hkey.
    induction pre as [|k pre IH]; cbn [app _warn_dup_pattern map].
    + apply Nat.leb_gt in Hkey. now rewrite Hkey.
    + assert (E : (2 <=? length (findall fl k t)) = true)
        by (apply Nat.leb_le, Hpre; now left).
      rewrite E. f_equal. apply IH. intros k' Hk'. apply Hpre. now right.
  - apply warn_dup_pattern_all.
  - induction keys as [|key keys [rest IH]]; [exists []; reflexivity|].
    cbn [_warn_dup_pattern warn_duplicates].
    destruct (2 <=? length (findall fl key t)).
    + exists rest. cbn [app map m_key m_count w_key w_count].
      now rewrite IH.
    + eexists. cbn [map app]. reflexivity.
  - induction keys as [|key keys IH]; [reflexivity|].
    cbn [_warn_dup_pattern]. now rewrite IH.
Qed.

Lemma warn_dup_pattern_stops_early_witness :
  _warn_dup_pattern (str "Hell1 World Hello1 world")
                    [marker "wor"; marker "hello"; marker "hel"] true
                    IGNORECASE
  = map (fun k => MatchWarning k
                    (length (findall IGNORECASE k
                               (str "Hell1 World Hello1 world"))))
        [marker "wor"].
Proof.
  refine (proj1 (warn_dup_pattern_stops_early
                   (str "Hell1 World Hello1 world")
                   [marker "wor"; marker "hello"; marker "hel"] true
                   IGNORECASE)
            [marker "wor"] (marker "hello") [marker "hel"] eq_refl _ _).
  - intros k [<-|[]]. vm_compute. lia.
  - vm_compute. lia.
Defined.

(** * All start positions *)





Lemma start_spans_nonneg t keys wb fl sp rest :
  _find_start_position_all t keys wb fl = Ok (sp :: rest) ->
  (0 <= fst sp)%Z.
Proof.
  unfold _find_start_position_all. destruct keys as [keys|].
  - destruct (_pattern_keys keys wb fl) as [p|x]; [|discriminate].
    destruct (pattern_finditer p t) as [|[s e] l]; [discriminate|].
    cbn [truthy negb map fst snd]. intros H. injection H as <- _.
    cbn [fst]. lia.
  - intros H. injection H as <- _. cbn [fst]. lia.
Qed.

Lemma first_span_is_head t keys wb fl :
  match _find_start_position_all t keys wb fl with
  | Raise x => snd (_find_start_position t keys wb fl) = Raise x
  | Ok [] => snd (_find_start_position t keys wb fl) = Ok (-1, -1)%Z
  | Ok (sp :: _) => snd (_find_start_position t keys wb fl) = Ok sp
  end.
Proof.
  unfold _find_start_position_all, _find_start_position.
  destruct keys as [keys|]; [|reflexivity].
  destruct (_pattern_keys keys wb fl) as [p|x]; [|reflexivity].
  unfold pattern_finditer, pattern_search.
  destruct (search (pat_flags p) (source p) t) as [[s e]|] eqn:E.
  - destruct (finditer_search_some _ _ _ _ _ E) as (l & ->). reflexivity.
  - rewrite (finditer_search_none _ _ _ E). reflexivity.
Qed.

(** X6: [_find_start_position] and [_find_start_position_all] agree on
    the first span: the single-result finder returns the first of the
    spans the multi-result finder lists, the sentinel exactly when that
    list is empty, and raises when it raises. *)
Theorem first_start_is_head_of_all t keys wb fl :
  (forall x, _find_start_position_all t keys wb fl = Raise x ->
             snd (_find_start_position t keys wb fl) = Raise x)
  /\ (_find_start_position_all t keys wb fl = Ok [] <->
      snd (_find_start_position t keys wb fl) = Ok (-1, -1)%Z)
  /\ (forall sp rest,
         _find_start_position_all t keys wb fl = Ok (sp :: rest) ->
         snd (_find_start_position t keys wb fl) = Ok sp).
Proof.
  pose proof (first_span_is_head t keys wb fl) as H.
  destruct (_find_start_position_all t keys wb fl) as [[|sp l]|x] eqn:A.
  - split; [discriminate|]. split; [tauto | discriminate].
  - split; [discriminate|]. split.
    + split; [discriminate|]. intros B. rewrite B in H.
      injection H as <-. exfalso.
      apply start_spans_nonneg in A. cbn [fst] in A. lia.
    + intros sp' rest B. injection B as <- <-. exact H.
  - split; [intros y Y; injection Y as <-; exact H|].
    split; [|discriminate]. split; [discriminate|].
    intros B. rewrite B in H. discriminate.
Qed.

Lemma first_start_is_head_of_all_witness :
  snd (_find_start_position conversation (Some [marker "Human"]) false
                            IGNORECASE) = Ok (0, 5)%Z.
Proof.
  apply (proj2 (proj2 (first_start_is_head_of_all conversation
                         (Some [marker "Human"]) false IGNORECASE))
           (0, 5)%Z [(20, 25)%Z]).
  vm_compute. reflexivity.
Defined.

(** * The first start position *)

Lemma find_start_position_cases t key keys wb fl :
  (exists s e,
      snd (_find_start_position t (Some (key :: keys)) wb fl)
      = Ok (Z.of_nat s, Z.of_nat e)
      /\ earliest_match (key :: keys) wb fl t s /\ s <= e <= length t)
  \/ (snd (_find_start_position t (Some (key :: keys)) wb fl)
      = Ok (-1, -1)%Z
      /\ forall k, In k (key :: keys) -> marker_absent k wb fl t).
Proof.
  unfold _find_start_position.
  destruct (_pattern_keys (key :: keys) wb fl) as [p|x] eqn:Hp.
  2:{ simpl in Hp. destruct wb; discriminate. }
  destruct (pattern_search p t) as [[s e]|] eqn:E.
  - left. exists s, e. split; [reflexivity|]. split.
    + exact (pattern_keys_search_some _ _ _ _ _ _ _ Hp E).
    + exact (search_bounds _ _ _ _ _ E).
  - right. split; [reflexivity|].
    now apply (pattern_keys_search_none _ _ _ _ t Hp).
Qed.





(** The end of the start span does depend on the order of the markers. *)
Example start_span_end_depends_on_order :
  snd (_find_start_position (str "Findings: x")
         (Some [marker "Find"; marker "Findings"]) false IGNORECASE)
  = Ok (0, 4)%Z
  /\ snd (_find_start_position (str "Findings: x")
            (Some [marker "Findings"; marker "Find"]) false IGNORECASE)
     = Ok (0, 8)%Z.
Proof. vm_compute. split; reflexivity. Qed.

(** X9: word boundaries only restrict the start: when
    [_find_start_position] finds a span with [word_boundary=True], it
    finds one with [word_boundary=False] too, starting at the same offset
    or before it; when it finds none without word boundaries, it finds
    none with them. *)
Theorem word_boundary_only_restricts t keys fl :
  (forall s e,
      snd (_find_start_position t (Some keys) true fl) = Ok (s, e) ->
      s <> (-1)%Z ->
      exists s' e',
        snd (_find_start_position t (Some keys) false fl) = Ok (s', e')
        /\ (0 <= s' <= s)%Z)
  /\ (snd (_find_start_position t (Some keys) false fl) = Ok (-1, -1)%Z ->
      snd (_find_start_position t (Some keys) true fl) = Ok (-1, -1)%Z).
Proof.
  destruct keys as [|key keys].
  { split; [intros s e H; discriminate | intros H; discriminate]. }
  assert (R : forall s, earliest_match (key :: keys) true fl t s ->
                        ~ (forall k, In k (key :: keys) ->
                                     marker_absent k false fl t)).
  { intros s (Hs & (k & Hin & Hk) & _) A.
    apply (marker_matches_mono k true false fl fl t s (flags_le_refl fl))
      in Hk; [|discriminate].
    rewrite (A k Hin s Hs) in Hk. discriminate. }
  destruct (find_start_position_cases t key keys true fl)
    as [(s & e & H & M & _)|(H & A)];
    destruct (find_start_position_cases t key keys false fl)
      as [(s' & e' & H' & M' & _)|(H' & A')]; rewrite H, H'; split.
  - intros a b Q _. injection Q as <- <-. exists (Z.of_nat s'), (Z.of_nat e').
    split; [reflexivity|].
    destruct M as (Hs & (k & Hin & Hk) & _).
    apply (marker_matches_mono k true false fl fl t s (flags_le_refl fl))
      in Hk; [|discriminate].
    destruct M' as (_ & _ & Hmin).
    destruct (Nat.lt_ge_cases s s') as [L|G]; [|lia].
    rewrite (Hmin s k L Hin) in Hk. discriminate.
  - intros Q. injection Q as Q _. lia.
  - intros a b Q _. exfalso. exact (R s M A').
  - intros _. exfalso. exact (R s M A').
  - intros a b Q N. injection Q as <- _. congruence.
  - intros Q. reflexivity.
  - intros a b Q N. injection Q as <- _. congruence.
  - reflexivity.
Qed.

Lemma word_boundary_only_restricts_witness :
  exists s' e',
    snd (_find_start_position prehistory (Some [marker "History"]) false
                              IGNORECASE) = Ok (s', e')
    /\ (0 <= s' <= 11)%Z.
Proof.
  apply (proj1 (word_boundary_only_restricts prehistory [marker "History"]
                  IGNORECASE) 11%Z 18%Z).
  - vm_compute. reflexivity.
  - discriminate.
Defined.

(** * The warnings of [_find_start_position] *)

(** X10: the warnings [_find_start_position] logs are, in the order of
    the list, one for each entry of the key list whose key, as a raw
    pattern, is found two times or more in the text (a key listed twice
    is warned about twice), each with the key and the number of its
    matches; the entries found fewer than two times are not warned
    about, and the warnings do not depend on the [word_boundary]
    argument. *)
Theorem warnings_are_the_duplicated_keys t keys wb fl :
  fst (_find_start_position t (Some keys) wb fl)
  = map (fun key => Warning key (length (finditer fl key t)))
        (filter (fun key => 2 <=? length (finditer fl key t)) keys)
  /\ (forall w, In w (fst (_find_start_position t (Some keys) wb fl)) <->
                exists key, In key keys
                            /\ w = Warning key (length (finditer fl key t))
                            /\ 2 <= length (finditer fl key t))
  /\ fst (_find_start_position t (Some keys) true fl)
     = fst (_find_start_position t (Some keys) false fl).
Proof.
  rewrite !find_start_position_log.
  assert (Eq : warn_duplicates t keys fl
               = map (fun key => Warning key (length (finditer fl key t)))
                     (filter (fun key => 2 <=? length (finditer fl key t))
                             keys)).
  { induction keys as [|key keys IH]; [reflexivity|].
    cbn [warn_duplicates filter]. rewrite findall_length, IH.
    now destruct (2 <=? length (finditer fl key t)). }
  split; [exact Eq|]. split; [|reflexivity].
  intros w. rewrite Eq, in_map_iff. split.
  - intros (key & <- & Hin). apply filter_In in Hin as [Hin L].
    exists key. split; [exact Hin|]. split; [reflexivity|].
    now apply Nat.leb_le.
  - intros (key & Hin & -> & L). exists key. split; [reflexivity|].
    apply filter_In. split; [exact Hin | now apply Nat.leb_le].
Qed.

(** A key listed twice is warned about twice. *)
Example warnings_for_a_key_listed_twice :
  fst (_find_start_position prehistory
         (Some [marker "history"; marker "history"]) true IGNORECASE)
  = [Warning (marker "history") 3; Warning (marker "history") 3].
Proof. vm_compute. reflexivity. Qed.

(** * Greedy against sequential *)




(** * The sections are parts of the text *)

Lemma lstrip_suffix x : exists pre, x = pre ++ lstrip x.
Proof.
  induction x as [|a x [pre IH]]; [exists []; reflexivity|].
  simpl. destruct (isspace a).
  - exists (a :: pre). simpl. now rewrite <- IH.
  - exists []. reflexivity.
Qed.

Lemma rstrip_prefix x : exists post, x = rstrip x ++ post.
Proof.
  unfold rstrip. destruct (lstrip_suffix (rev x)) as [pre H].
  exists (rev pre). rewrite <- rev_app_distr, <- H.
  now rewrite rev_involutive.
Qed.

Lemma substring_trans a b c : substring a b -> substring b c -> substring a c.
Proof.
  intros (p1 & q1 & ->) (p2 & q2 & ->).
  exists (p2 ++ p1), (q1 ++ q2). now rewrite !app_assoc.
Qed.

Lemma strip_substring x : substring (strip x) x.
Proof.
  unfold strip. destruct (lstrip_suffix x) as [pre H1].
  destruct (rstrip_prefix (lstrip x)) as [post H2].
  exists pre, post. now rewrite <- H2.
Qed.

Lemma slice_substring t lo hi : substring (slice t lo hi) t.
Proof.
  unfold slice.
  set (l := norm_index (length t) lo).
  set (n := norm_index (length t) hi - l).
  exists (firstn l t), (skipn n (skipn l t)).
  now rewrite firstn_skipn, firstn_skipn.
Qed.

Lemma strip_stripped x : stripped (strip x).
Proof.
  split.
  - unfold strip. rewrite <- lstrip_rstrip. apply lstrip_starts.
  - unfold strip, rstrip. rewrite rev_involutive. apply lstrip_starts.
Qed.

Lemma section_part_of_text t lo hi :
  substring (strip (slice t lo hi)) t /\ stripped (strip (slice t lo hi)).
Proof.
  split; [|apply strip_stripped].
  exact (substring_trans _ _ _ (strip_substring _) (slice_substring t lo hi)).
Qed.

(** X12: the section [extract] returns is a contiguous part of the text
    and neither begins nor ends with a whitespace character. *)
Theorem extract_section_of_text self t log sec :
  extract self t = (log, Ok sec) -> substring sec t /\ stripped sec.
Proof.
  unfold extract.
  destruct (_find_start_position t (start_keys self) true IGNORECASE)
    as [lg [[s e]|x]]; [|discriminate].
  destruct (s =? -1)%Z.
  - intros H. injection H as _ <-. split.
    + exists [], t. reflexivity.
    + split; reflexivity.
  - destruct (find_end self t s true IGNORECASE) as [r|x]; [|discriminate].
    intros H. injection H as _ <-. apply section_part_of_text.
Qed.

Lemma extract_section_of_text_witness :
  substring (str "HISTORY: a") report_reversed
  /\ stripped (str "HISTORY: a").
Proof.
  apply (extract_section_of_text
           (extractor (Some [marker "HISTORY"])
                      (Some [marker "FINDINGS"; marker "IMPRESSION"])
                      true false "greedy")
           report_reversed [] (str "HISTORY: a")).
  vm_compute. reflexivity.
Defined.

Lemma extract_all_loop_sections self t :
  forall starts acc secs,
    extract_all_loop self t starts acc = Ok secs ->
    exists new,
      secs = acc ++ new /\ length new <= length starts
      /\ Forall (fun sec => substring sec t /\ stripped sec /\ sec <> [])
                new.
Proof.
  induction starts as [|[s e] starts IH]; intros acc secs;
    cbn [extract_all_loop].
  - intros H. injection H as <-. exists []. rewrite app_nil_r.
    split; [reflexivity|]. split; [apply Nat.le_refl | constructor].
  - destruct (find_end self t s (word_boundary self) (flags self))
      as [r|x]; [|discriminate].
    destruct (truthy (strip (slice t (if include_start_keys self
                                      then s else e) r))) eqn:T.
    + intros H. apply IH in H as (new & -> & L & F).
      eexists (_ :: new). rewrite <- app_assoc. split; [reflexivity|].
      split; [cbn [length]; lia|]. constructor; [|exact F].
      split; [apply section_part_of_text|].
      split; [apply section_part_of_text | now apply truthy_nonempty].
    + intros H. apply IH in H as (new & -> & L & F).
      exists new. split; [reflexivity|]. split; [cbn [length]; lia|exact F].
Qed.

(** X13: every section [extract_all] returns is a non-empty contiguous
    part of the text that neither begins nor ends with a whitespace
    character, and there are at most as many sections as start spans. *)
Theorem extract_all_sections_of_text self t secs :
  extract_all self t = Ok secs ->
  Forall (fun sec => substring sec t /\ stripped sec /\ sec <> []) secs
  /\ (forall starts,
         _find_start_position_all t (start_keys self) (word_boundary self)
                                  (flags self) = Ok starts ->
         length secs <= length starts).
Proof.
  unfold extract_all.
  destruct (_find_start_position_all t (start_keys self)
              (word_boundary self) (flags self)) as [starts|x];
    [|discriminate].
  destruct (negb (truthy starts)).
  - intros H. injection H as <-. split; [constructor|].
    intros st _. apply Nat.le_0_l.
  - intros H. apply extract_all_loop_sections in H as (new & -> & L & F).
    split; [exact F|]. intros st Q. injection Q as <-. exact L.
Qed.

Lemma extract_all_sections_of_text_witness :
  Forall (fun sec => substring sec conversation /\ stripped sec
                     /\ sec <> [])
         [str ": Hi"; str ": Bye"].
Proof.
  apply (extract_all_sections_of_text
           (extractor (Some [marker "Human"]) (Some [marker "AI"])
                      false false "greedy") conversation
           [str ": Hi"; str ": Bye"]).
  vm_compute. reflexivity.
Defined.

(** * [extract] against [extract_all] *)

Lemma find_end_ok_everywhere self t p wb fl r :
  find_end self t p wb fl = Ok r ->
  forall p' wb' fl', exists r', find_end self t p' wb' fl' = Ok r'.
Proof.
  unfold find_end. intros H p' wb' fl'.
  destruct (String.eqb (match_strategy self) "greedy").
  - destruct (end_keys self) as [[|k ks]|].
    + discriminate.
    + destruct (greedy_end_cases t k ks p' wb' fl')
        as [(i & _ & Q)|(_ & Q)]; rewrite Q; eauto.
    + simpl. eauto.
  - destruct (end_keys self) as [keys|].
    + apply sequential_loop_total.
    + simpl. eauto.
Qed.

Lemma extract_all_loop_returns self t :
  (forall p, exists r,
        find_end self t p (word_boundary self) (flags self) = Ok r) ->
  forall starts acc,
  exists new, extract_all_loop self t starts acc = Ok (acc ++ new).
Proof.
  intros Tot. induction starts as [|[s e] starts IH]; intros acc;
    cbn [extract_all_loop].
  - exists []. now rewrite app_nil_r.
  - destruct (Tot s) as (r & ->).
    destruct (truthy (strip (slice t (if include_start_keys self
                                      then s else e) r))).
    + destruct (IH (acc ++ [strip (slice t (if include_start_keys self
                                            then s else e) r)]))
        as (new & ->).
      eexists. now rewrite <- app_assoc.
    + apply IH.
Qed.

(** X14: for an extractor whose options are the ones [extract] applies
    ([word_boundary=True], [flags=re.IGNORECASE]), a non-empty section
    returned by [extract] is the first section [extract_all] returns. *)
Theorem extract_is_first_of_extract_all self t log sec :
  word_boundary self = true -> flags self = IGNORECASE ->
  extract self t = (log, Ok sec) -> sec <> [] ->
  exists rest, extract_all self t = Ok (sec :: rest).
Proof.
  intros Hwb Hfl. unfold extract, extract_all. rewrite Hwb, Hfl.
  pose proof (first_span_is_head t (start_keys self) true IGNORECASE) as Hd.
  destruct (_find_start_position t (start_keys self) true IGNORECASE)
    as [lg [[s e]|x]]; [|discriminate].
  cbn [snd] in Hd.
  destruct (s =? -1)%Z eqn:Es.
  { intros H N. injection H as _ <-. congruence. }
  destruct (find_end self t s true IGNORECASE) as [r|x] eqn:E;
    [|discriminate].
  intros H N. injection H as _ <-.
  destruct (_find_start_position_all t (start_keys self) true IGNORECASE)
    as [[|sp l]|x]; [| |discriminate].
  { injection Hd as -> _. discriminate. }
  injection Hd as <-. cbn [truthy negb extract_all_loop].
  rewrite Hwb, Hfl, E.
  destruct (strip (slice t (if include_start_keys self then s else e) r))
    as [|c sec'] eqn:S; [congruence|].
  cbn [truthy app].
  destruct (extract_all_loop_returns self t) with (starts := l)
    (acc := [c :: sec']) as (new & Q).
  - intros p. rewrite Hwb, Hfl.
    exact (find_end_ok_everywhere self t s true IGNORECASE r E p true
             IGNORECASE).
  - exists new. exact Q.
Qed.

Lemma extract_is_first_of_extract_all_witness :
  exists rest,
    extract_all (extractor (Some [marker "Human"]) (Some [marker "AI"])
                           true true "greedy") conversation
    = Ok (str "Human: Hi" :: rest).
Proof.
  apply (extract_is_first_of_extract_all
           (extractor (Some [marker "Human"]) (Some [marker "AI"])
                      true true "greedy") conversation
           [Warning (marker "Human") 2] (str "Human: Hi")).
  - reflexivity.
  - reflexivity.
  - vm_compute. reflexivity.
  - discriminate.
Defined.

(** * The letter case of the text *)

Lemma lower_facts a :
  isspace (lower a) = isspace a /\ isword (lower a) = isword a
  /\ isdigit (lower a) = isdigit a /\ lower (lower a) = lower a
  /\ Ascii.eqb (lower a) newline = Ascii.eqb a newline.
Proof.
  destruct a as [[] [] [] [] [] [] [] []]; vm_compute;
    repeat split; reflexivity.
Qed.

Lemma length_lower t : length (lower_text t) = length t.
Proof. apply length_map. Qed.

Lemma step_char_lower (p : ascii -> bool) t i k k' :
  (forall a, p (lower a) = p a) -> k (S i) = k' (S i) ->
  step_char p (lower_text t) i k = step_char p t i k'.
Proof.
  intros Hp Hk. unfold step_char, lower_text. rewrite nth_error_map.
  destruct (nth_error t i) as [a|]; [|reflexivity]. cbn [option_map].
  rewrite Hp. now destruct (p a).
Qed.

Lemma is_boundary_lower t i : is_boundary (lower_text t) i = is_boundary t i.
Proof.
  assert (W : forall j, word_at (lower_text t) j = word_at t j).
  { intros j. unfold word_at, lower_text. rewrite nth_error_map.
    destruct (nth_error t j) as [a|]; [|reflexivity]. cbn [option_map].
    apply lower_facts. }
  unfold is_boundary. rewrite W. destruct i; [reflexivity | now rewrite W].
Qed.

Lemma star_loop_ext
      (body body' : nat -> (nat -> option nat) -> option nat) :
  (forall i c c', (forall j, c j = c' j) -> body i c = body' i c') ->
  forall n i k k',
    (forall j, k j = k' j) -> star_loop body k n i = star_loop body' k' n i.
Proof.
  intros Hb. induction n as [|n IH]; intros i k k' Hk; simpl.
  - apply Hk.
  - rewrite (Hb i _ (fun j => if i <? j then star_loop body' k' n j
                              else k' j)).
    + now rewrite Hk.
    + intros j. destruct (i <? j); [now apply IH | apply Hk].
Qed.

(** Under [re.IGNORECASE] the matcher does not see the letter case of the
    text. *)
Lemma re_match_lower fl r t :
  ignorecase fl = true ->
  forall i k k',
    (forall j, k j = k' j) ->
    re_match fl r (lower_text t) i k = re_match fl r t i k'.
Proof.
  intros Hfl.
  induction r as [| c | | neg c | | r1 IH1 r2 IH2 | r1 IH1 r2 IH2 | r1 IH1];
    intros i k k' Hk; cbn [re_match].
  - apply Hk.
  - apply step_char_lower; [|apply Hk]. intros a. unfold chr_eq.
    rewrite Hfl. now rewrite (proj1 (proj2 (proj2 (proj2 (lower_facts a))))).
  - apply step_char_lower; [|apply Hk]. intros a. unfold dot_ok.
    now rewrite (proj2 (proj2 (proj2 (proj2 (lower_facts a))))).
  - apply step_char_lower; [|apply Hk]. intros a.
    destruct c; cbn [in_class]; f_equal; apply lower_facts.
  - rewrite is_boundary_lower. destruct (is_boundary t i);
      [apply Hk | reflexivity].
  - apply IH1. intros j. now apply IH2.
  - rewrite (IH1 i k k' Hk), (IH2 i k k' Hk). reflexivity.
  - rewrite length_lower.
    apply star_loop_ext; [|exact Hk]. intros j c c' Hc. now apply IH1.
Qed.

Lemma scan_lower fl r t :
  ignorecase fl = true ->
  forall n i adv, scan fl r (lower_text t) n i adv = scan fl r t n i adv.
Proof.
  intros Hfl. induction n as [|n IH]; intros i adv; [reflexivity|].
  cbn [scan].
  rewrite (re_match_lower fl r t Hfl i _
             (fun j => if adv && (j =? i) then None else Some j))
    by reflexivity.
  now rewrite IH.
Qed.

Lemma search_lower fl r t :
  ignorecase fl = true -> search fl r (lower_text t) = search fl r t.
Proof.
  intros Hfl. unfold search. rewrite length_lower.
  now apply scan_lower.
Qed.

Lemma finditer_loop_lower fl r t :
  ignorecase fl = true ->
  forall fuel i adv,
    finditer_loop fl r (lower_text t) fuel i adv
    = finditer_loop fl r t fuel i adv.
Proof.
  intros Hfl. induction fuel as [|n IH]; intros i adv; [reflexivity|].
  cbn [finditer_loop]. rewrite length_lower.
  rewrite (scan_lower fl r t Hfl).
  destruct (scan fl r t (S (length t) - i) i adv) as [[s e]|];
    [|reflexivity].
  now rewrite IH.
Qed.

Lemma finditer_lower fl r t :
  ignorecase fl = true -> finditer fl r (lower_text t) = finditer fl r t.
Proof.
  intros Hfl. unfold finditer. rewrite length_lower.
  now apply finditer_loop_lower.
Qed.

Lemma find_start_position_lower t keys wb fl :
  ignorecase fl = true ->
  _find_start_position (lower_text t) keys wb fl
  = _find_start_position t keys wb fl.
Proof.
  intros Hfl. unfold _find_start_position.
  destruct keys as [keys|]; [|reflexivity].
  assert (W : warn_duplicates (lower_text t) keys fl
              = warn_duplicates t keys fl).
  { induction keys as [|key keys IH]; [reflexivity|].
    cbn [warn_duplicates].
    now rewrite !findall_length, (finditer_lower fl key t Hfl), IH. }
  rewrite W.
  destruct (_pattern_keys keys wb fl) as [p|x] eqn:Hp; [|reflexivity].
  assert (Hpf : ignorecase (pat_flags p) = true).
  { destruct keys as [|k ks]; [discriminate|]. simpl in Hp.
    destruct wb; injection Hp as <-; exact Hfl. }
  unfold pattern_search. now rewrite (search_lower _ _ t Hpf).
Qed.

Lemma slice_lower t lo hi :
  slice (lower_text t) lo hi = lower_text (slice t lo hi).
Proof.
  unfold slice. rewrite length_lower. unfold lower_text.
  now rewrite skipn_map, firstn_map.
Qed.

Lemma slice_from_lower t lo :
  slice_from (lower_text t) lo = lower_text (slice_from t lo).
Proof.
  unfold slice_from. rewrite length_lower. unfold lower_text.
  now rewrite skipn_map.
Qed.

Lemma lstrip_lower x : lstrip (lower_text x) = lower_text (lstrip x).
Proof.
  induction x as [|a x IH]; [reflexivity|].
  cbn [lower_text map lstrip]. rewrite (proj1 (lower_facts a)).
  destruct (isspace a); [exact IH | reflexivity].
Qed.

Lemma strip_lower x : strip (lower_text x) = lower_text (strip x).
Proof.
  unfold strip, rstrip. rewrite lstrip_lower.
  unfold lower_text at 1. rewrite <- map_rev.
  change (map lower (rev (lstrip x))) with (lower_text (rev (lstrip x))).
  rewrite lstrip_lower. unfold lower_text. now rewrite map_rev.
Qed.

Lemma find_end_lower self t p :
  find_end self (lower_text t) p true IGNORECASE
  = find_end self t p true IGNORECASE.
Proof.
  assert (L : len (lower_text t) = len t)
    by (unfold len; now rewrite length_lower).
  unfold find_end, _find_end_position_greedy, _find_end_position_sequential.
  rewrite L, slice_from_lower.
  destruct (String.eqb (match_strategy self) "greedy");
    destruct (end_keys self) as [keys|]; try reflexivity.
  - destruct (_pattern_keys keys true IGNORECASE) as [pt|x] eqn:Hp;
      [|reflexivity].
    assert (Hpf : ignorecase (pat_flags pt) = true).
    { destruct keys as [|k ks]; [discriminate|]. simpl in Hp.
      injection Hp as <-. reflexivity. }
    unfold pattern_search. now rewrite (search_lower _ _ _ Hpf).
  - induction keys as [|key keys IH]; cbn [sequential_loop];
      [now rewrite L|].
    cbn [_pattern_keys join_alt]. unfold pattern_search.
    cbn [source pat_flags].
    rewrite (search_lower IGNORECASE (anchored key) (slice_from t p)
               eq_refl).
    now rewrite IH.
Qed.

Lemma extract_lower self t :
  extract self (lower_text t)
  = (fst (extract self t),
     match snd (extract self t) with
     | Ok sec => Ok (lower_text sec)
     | Raise x => Raise x
     end).
Proof.
  unfold extract. rewrite find_start_position_lower by reflexivity.
  destruct (_find_start_position t (start_keys self) true IGNORECASE)
    as [lg [[s e]|x]]; [|reflexivity].
  destruct (s =? -1)%Z; [reflexivity|].
  rewrite find_end_lower.
  destruct (find_end self t s true IGNORECASE) as [r|x]; [|reflexivity].
  cbn [fst snd]. now rewrite slice_lower, strip_lower.
Qed.

(** X15: for texts of Latin-1 characters and markers written with
    literal characters, [.], [\w \s \d] and their negations, [\b],
    concatenation, alternation and the greedy [*] (no character sets, no
    inline flags, no look-around), [extract] does not see the letter
    case of the text: on two such texts that differ in letter case only
    it logs the same warnings and raises the same error or returns
    sections that differ in letter case only, so cut at the same
    offsets.  In particular lower-casing the text lower-cases the
    section. *)
Theorem extract_ignores_letter_case self t1 t2 :
  lower_text t1 = lower_text t2 ->
  fst (extract self t1) = fst (extract self t2)
  /\ match snd (extract self t1), snd (extract self t2) with
     | Ok sec1, Ok sec2 => lower_text sec1 = lower_text sec2
     | Raise x1, Raise x2 => x1 = x2
     | _, _ => False
     end
  /\ extract self (lower_text t1)
     = (fst (extract self t1),
        match snd (extract self t1) with
        | Ok sec => Ok (lower_text sec)
        | Raise x => Raise x
        end).
Proof.
  intros H. pose proof (extract_lower self t1) as E1.
  pose proof (extract_lower self t2) as E2. rewrite <- H in E2.
  rewrite E1 in E2. injection E2 as F S.
  split; [exact F|]. split; [|exact E1].
  destruct (snd (extract self t1)), (snd (extract self t2));
    congruence.
Qed.

Lemma extract_ignores_letter_case_witness :
  fst (extract (extractor (Some [marker "history"])
                          (Some [marker "technique"]) false false "greedy")
               (str "HISTORY: Pain TECHNIQUE: CT"))
  = fst (extract (extractor (Some [marker "history"])
                            (Some [marker "technique"]) false false
                            "greedy")
                 (str "History: pain Technique: ct")).
Proof.
  refine (proj1 (extract_ignores_letter_case
                   (extractor (Some [marker "history"])
                              (Some [marker "technique"]) false false
                              "greedy")
                   (str "HISTORY: Pain TECHNIQUE: CT")
                   (str "History: pain Technique: ct") _)).
  vm_compute. reflexivity.
Defined.

(** * More liberal options *)

(** X16: word boundaries only delay the greedy end: on the same non-empty
    list and start offset, the end found with [word_boundary=False] is
    never after the end found with [word_boundary=True]. *)
Theorem greedy_end_word_boundary_later t keys p fl :
  keys <> [] -> (0 <= p <= len t)%Z ->
  exists a b,
    _find_end_position_greedy t (Some keys) p false fl = Ok a
    /\ _find_end_position_greedy t (Some keys) p true fl = Ok b
    /\ (p <= a <= b)%Z /\ (b <= len t)%Z.
Proof.
  intros Hne Hp. destruct keys as [|k ks]; [congruence|].
  pose proof (slice_from_length t p Hp) as L.
  destruct (greedy_end_cases t k ks p false fl) as [(i & M & ->)|(A & ->)];
    destruct (greedy_end_cases t k ks p true fl)
      as [(j & M' & ->)|(A' & ->)].
  - exists (p + Z.of_nat i)%Z, (p + Z.of_nat j)%Z.
    split; [reflexivity|]. split; [reflexivity|].
    destruct M as (Hi & _ & Hmin). destruct M' as (Hj & (key & Hin & Hk) & _).
    apply (marker_matches_mono key true false fl fl _ j (flags_le_refl fl))
      in Hk; [|discriminate].
    destruct (Nat.lt_ge_cases j i) as [Lt|Ge]; [|lia].
    rewrite (Hmin j key Lt Hin) in Hk. discriminate.
  - exists (p + Z.of_nat i)%Z, (len t).
    destruct M as (Hi & _). repeat split; lia.
  - exfalso. destruct M' as (Hj & (key & Hin & Hk) & _).
    apply (marker_matches_mono key true false fl fl _ j (flags_le_refl fl))
      in Hk; [|discriminate].
    rewrite (A key Hin j Hj) in Hk. discriminate.
  - exists (len t), (len t). repeat split; lia.
Qed.

Lemma greedy_end_word_boundary_later_witness :
  exists a b,
    _find_end_position_greedy finding_impression (Some [marker "IMP"]) 1
                              false IGNORECASE = Ok a
    /\ _find_end_position_greedy finding_impression (Some [marker "IMP"]) 1
                                 true IGNORECASE = Ok b
    /\ (1 <= a <= b)%Z /\ (b <= len finding_impression)%Z.
Proof.
  apply (greedy_end_word_boundary_later finding_impression [marker "IMP"]
           1%Z IGNORECASE).
  - discriminate.
  - vm_compute. split; discriminate.
Defined.

(** X17: for texts of Latin-1 characters and markers written with
    literal characters, [.], [\w \s \d] and their negations, [\b],
    concatenation, alternation and the greedy [*] (no character sets, no
    inline flags, no look-around), more liberal flags only add matches:
    when [_find_start_position] finds a span under the flags [fl], it
    finds one under every more liberal [fl'] (such as [fl] with
    [re.IGNORECASE] added), starting at the same offset or before it. *)
Theorem liberal_flags_only_add_matches t keys wb fl fl' :
  flags_le fl fl' ->
  forall s e,
    snd (_find_start_position t (Some keys) wb fl) = Ok (s, e) ->
    s <> (-1)%Z ->
    exists s' e',
      snd (_find_start_position t (Some keys) wb fl') = Ok (s', e')
      /\ (0 <= s' <= s)%Z.
Proof.
  intros Hfl s e. destruct keys as [|key keys]; [discriminate|].
  destruct (find_start_position_cases t key keys wb fl)
    as [(a & b & H & M & _)|(H & A)]; rewrite H.
  2:{ intros Q N. injection Q as <- _. congruence. }
  intros Q _. injection Q as <- <-.
  destruct M as (Ha & (k & Hin & Hk) & _).
  apply (marker_matches_mono k wb wb fl fl' t a Hfl) in Hk; [|auto].
  destruct (find_start_position_cases t key keys wb fl')
    as [(a' & b' & H' & M' & _)|(H' & A')]; rewrite H'.
  - exists (Z.of_nat a'), (Z.of_nat b'). split; [reflexivity|].
    destruct M' as (_ & _ & Hmin).
    destruct (Nat.lt_ge_cases a a') as [Lt|Ge]; [|lia].
    rewrite (Hmin a k Lt Hin) in Hk. discriminate.
  - rewrite (A' k Hin a Ha) in Hk. discriminate.
Qed.

Lemma liberal_flags_only_add_matches_witness :
  exists s' e',
    snd (_find_start_position (str "history: none. History: pain")
           (Some [marker "History"]) true IGNORECASE) = Ok (s', e')
    /\ (0 <= s' <= 15)%Z.
Proof.
  apply (liberal_flags_only_add_matches (str "history: none. History: pain")
           [marker "History"] true NOFLAG IGNORECASE
           ltac:(split; [reflexivity | discriminate]) 15%Z 22%Z).
  - vm_compute. reflexivity.
  - discriminate.
Defined.
